(** * DataCleaner: a shallow embedding of src/data_cleaner/data_cleaner.py

    The cleaner is written against pandas.  A DataFrame is embedded as an
    ordered list of rows, each row a finite map from column name to cell,
    together with the dtype of every column.  The Series operations the
    source calls ([fillna], [mode], [quantile], [to_numeric],
    [to_datetime], [drop_duplicates], [dropna], boolean masks and
    [df.loc[mask, col] = v]) are embedded with their documented behaviour
    (pandas 2.x); the methods of [DataCleaner] are then transcribed line by
    line on top of them.  The methods change the frame they are given and
    return it; here they return the new frame.

    Idealisations, fixed once and for all:
    - float64 and int64 cells are exact rationals ([Q]); [NaN], [None] and
      [NaT] are the single null marker [VNull];
    - timestamps are integers (a count of time units since the epoch, no
      time zone);
    - strings are byte strings; only ASCII letters are cased and only the
      ASCII white space of [str.isspace] is white space;
    - the row index is positional (its labels are unique);
    - [logging] calls are recorded in a log that is returned with the
      result, exceptions are returned as [Raise]; [print] is left out. *)

From Stdlib Require Import QArith Qround Lqa Ascii.
From Stdlib Require OrderedTypeEx.
From stdpp Require Import gmap strings list fin_maps.

Local Open Scope string_scope.
Local Open Scope list_scope.

(** ** Cells, dtypes, data frames *)

Inductive Value : Type :=
| VNull
| VNum (x : Q)
| VStr (s : string)
| VTime (t : Z).

Inductive Dtype : Type := Numeric | Datetime | Object.

#[global] Instance Value_inhabited : Inhabited Value := populate VNull.
#[global] Instance Dtype_eq_dec : EqDecision Dtype.
Proof. solve_decision. Defined.

Record Series : Type := mkSeries { dtype : Dtype; values : list Value }.

Record DataFrame : Type := mkDataFrame {
  columns : gmap string Dtype;
  rows : list (gmap string Value)
}.

Definition isnull (v : Value) : bool :=
  match v with VNull => true | _ => false end.

(** [col in df.columns] *)
Definition has_column (df : DataFrame) (col : string) : bool :=
  bool_decide (is_Some (columns df !! col)).

(** [df[col]] *)
Definition get_col (df : DataFrame) (col : string) : Series :=
  {| dtype := default Object (columns df !! col);
     values := (λ r : gmap string Value, r !!! col) <$> rows df |}.

(** [df[col] = s] *)
Definition set_col (df : DataFrame) (col : string) (s : Series) : DataFrame :=
  {| columns := <[col := dtype s]> (columns df);
     rows := zip_with (λ (r : gmap string Value) v, <[col := v]> r)
               (rows df) (values s) |}.

(** Boolean indexing: keep the positions whose mask entry is [true]. *)
Fixpoint bool_index {A : Type} (mask : list bool) (l : list A) : list A :=
  match mask, l with
  | b :: mask', x :: l' =>
      if b then x :: bool_index mask' l' else bool_index mask' l'
  | _, _ => []
  end.

(** [df[mask]] *)
Definition select_rows (mask : list bool) (df : DataFrame) : DataFrame :=
  {| columns := columns df; rows := bool_index mask (rows df) |}.

(** [mask.sum()] *)
Definition mask_sum (mask : list bool) : nat :=
  length (filter (λ b : bool, b = true) mask).

(** [df.loc[mask, col] = v] for a column [col] of [df]: the rows selected
    by the mask receive [v], the others are left alone; the column keeps
    its dtype (a numeric column receives a number or NaN, a datetime column
    receives NaT). *)
Definition loc_set (df : DataFrame) (mask : list bool) (col : string)
    (v : Value) : DataFrame :=
  {| columns := columns df;
     rows := zip_with (λ (b : bool) (r : gmap string Value),
                         if b then <[col := v]> r else r)
               mask (rows df) |}.

(** [len(df)] *)
Definition len (df : DataFrame) : nat := length (rows df).

(** ** Exceptions and the log *)

Inductive Error : Type :=
| KeyError (labels : list string)
| ValueError.

Inductive Message : Type :=
| DroppedDuplicates (n : nat) (subset_cols : list string)
| DroppedNaRows (n : nat) (subset_cols : list string)
| ModeEmpty (col : string)
| DatetimeConversionFailed (col : string) (n : nat)
| FutureDatesFound (col : string) (n : nat)
| NumericConversionFailed (col : string) (n : nat)
| HandledOutliers (col : string) (n : nat) (strategy : string)
| TransactionsCleaned.

Inductive LogRecord : Type :=
| INFO (m : Message)
| WARNING (m : Message).

Inductive result (A : Type) : Type :=
| Ok (a : A) (log : list LogRecord)
| Raise (e : Error).
Arguments Ok {A} a log.
Arguments Raise {A} e.

#[global] Instance result_ret : MRet result := λ A a, Ok a [].
#[global] Instance result_bind : MBind result := λ A B f m,
  match m with
  | Ok a l =>
      match f a with
      | Ok b l' => Ok b (l ++ l')
      | Raise e => Raise e
      end
  | Raise e => Raise e
  end.

Definition info (m : Message) : result unit := Ok tt [INFO m].
Definition warning (m : Message) : result unit := Ok tt [WARNING m].

(** ** Comparisons of cells with a scalar *)

Definition Qltb (x y : Q) : bool := negb (Qle_bool y x).

(** [v < bound]: a null compares false. *)
Definition value_ltb (v : Value) (bound : Q) : bool :=
  match v with VNum x => Qltb x bound | _ => false end.

(** [v > limit], where [limit] is NaN when [None]: everything compares
    false with NaN. *)
Definition value_gtb (v : Value) (limit : option Q) : bool :=
  match v, limit with
  | VNum x, Some u => Qltb u x
  | _, _ => false
  end.

(** [s < bound] *)
Definition lt_mask (vs : list Value) (bound : Q) : list bool :=
  (λ v, value_ltb v bound) <$> vs.

(** [s > limit] *)
Definition gt_mask (vs : list Value) (limit : option Q) : list bool :=
  (λ v, value_gtb v limit) <$> vs.

(** ** [Series.quantile] (linear interpolation, nulls skipped) *)

Fixpoint insert_sorted (x : Q) (l : list Q) : list Q :=
  match l with
  | [] => [x]
  | y :: l' => if Qle_bool x y then x :: l else y :: insert_sorted x l'
  end.

Definition sort_Q (l : list Q) : list Q := foldr insert_sorted [] l.

Definition numbers (vs : list Value) : list Q :=
  omap (λ v, match v with VNum x => Some x | _ => None end) vs.

(** The value at virtual index [(n - 1) * q] of the sorted non-null values:
    [a[lo] + (a[hi] - a[lo]) * frac], kept in lowest terms. *)
Definition quantile_sorted (a : list Q) (q : Q) : option Q :=
  match a with
  | [] => None
  | x0 :: _ =>
      let idx := (inject_Z (Z.of_nat (length a - 1)) * q)%Q in
      let lo := Z.to_nat (Qfloor idx) in
      let hi := Nat.min (S lo) (length a - 1) in
      let frac := (idx - inject_Z (Qfloor idx))%Q in
      let alo := nth lo a x0 in
      let ahi := nth hi a x0 in
      Some (Qred (alo + (ahi - alo) * frac))
  end.

(** [s.quantile(q)]: [ValueError] unless [0 <= q <= 1]; NaN ([None]) when
    the series has no non-null value. *)
Definition quantile (vs : list Value) (q : Q) : result (option Q) :=
  if Qle_bool 0 q && Qle_bool q 1
  then mret (quantile_sorted (sort_Q (numbers vs)) q)
  else Raise ValueError.

(** [pd.api.types.is_numeric_dtype(s)] *)
Definition is_numeric_dtype (s : Series) : bool :=
  bool_decide (dtype s = Numeric).

(** ** [DataCleaner._handle_outliers] *)

Definition limit_value (limit : option Q) : Value :=
  match limit with Some u => VNum u | None => VNull end.

Definition _handle_outliers (df : DataFrame) (col_name : string)
    (lower_bound : option Q) (upper_quantile : option Q) (strategy : string)
  : result DataFrame :=
  if has_column df col_name && is_numeric_dtype (get_col df col_name) then
    let initial_outlier_count := 0 in
    '(df, initial_outlier_count) ←
      match lower_bound with
      | Some lower_bound =>
          let invalid_lower_mask := lt_mask (values (get_col df col_name)) lower_bound in
          let initial_outlier_count :=
            initial_outlier_count + mask_sum invalid_lower_mask in
          let df :=
            if String.eqb strategy "cap" then
              loc_set df invalid_lower_mask col_name (VNum lower_bound)
            else if String.eqb strategy "nan" then
              loc_set df invalid_lower_mask col_name VNull
            else if String.eqb strategy "remove" then
              select_rows (negb <$> invalid_lower_mask) df
            else df in
          mret (df, initial_outlier_count)
      | None => mret (df, initial_outlier_count)
      end;
    '(df, initial_outlier_count) ←
      match upper_quantile with
      | Some upper_quantile =>
          upper_limit ← quantile (values (get_col df col_name)) upper_quantile;
          let invalid_upper_mask := gt_mask (values (get_col df col_name)) upper_limit in
          let initial_outlier_count :=
            initial_outlier_count + mask_sum invalid_upper_mask in
          let df :=
            if String.eqb strategy "cap" then
              loc_set df invalid_upper_mask col_name (limit_value upper_limit)
            else if String.eqb strategy "nan" then
              loc_set df invalid_upper_mask col_name VNull
            else if String.eqb strategy "remove" then
              select_rows (negb <$> invalid_upper_mask) df
            else df in
          mret (df, initial_outlier_count)
      | None => mret (df, initial_outlier_count)
      end;
    info (HandledOutliers col_name initial_outlier_count strategy);;
    mret df
  else mret df.

(** ** Equality of cells, as hashing and [==] see it

    Nulls are equal to each other (as in [drop_duplicates] and
    [value_counts]); numbers are compared by value. *)

Definition value_eqb (a b : Value) : bool :=
  match a, b with
  | VNull, VNull => true
  | VNum x, VNum y => Qeq_bool x y
  | VStr s, VStr t => String.eqb s t
  | VTime s, VTime t => Z.eqb s t
  | _, _ => false
  end.

Fixpoint key_eqb (k1 k2 : list Value) : bool :=
  match k1, k2 with
  | [], [] => true
  | a :: k1', b :: k2' => value_eqb a b && key_eqb k1' k2'
  | _, _ => false
  end.

(** ** [DataFrame.drop_duplicates(subset=..., keep='first')] *)

Definition row_key (subset : list string) (r : gmap string Value) : list Value :=
  (λ c, r !!! c) <$> subset.

(** [duplicated(keep='first')]: a row is marked when its key has been seen
    in an earlier row. *)
Fixpoint duplicated_from (seen : list (list Value)) (keys : list (list Value))
  : list bool :=
  match keys with
  | [] => []
  | k :: keys' => existsb (key_eqb k) seen :: duplicated_from (k :: seen) keys'
  end.

Definition duplicated (subset : list string) (df : DataFrame) : list bool :=
  duplicated_from [] (row_key subset <$> rows df).

Definition drop_duplicates (subset : list string) (df : DataFrame) : DataFrame :=
  select_rows (negb <$> duplicated subset df) df.

(** Truthiness of an optional list argument: [None] and [[]] are both
    false, so an omitted argument is embedded as [[]]. *)
Definition truthy {A : Type} (l : list A) : bool :=
  match l with [] => false | _ => true end.

(** ** [DataCleaner._handle_duplicates] *)

Definition _handle_duplicates (df : DataFrame) (subset_cols : list string)
  : result DataFrame :=
  if truthy subset_cols && forallb (has_column df) subset_cols then
    let original_rows := len df in
    let df := drop_duplicates subset_cols df in
    info (DroppedDuplicates (original_rows - len df) subset_cols);;
    mret df
  else mret df.

(** ** [Series.mode], [Series.fillna], [DataFrame.dropna] *)

Definition count_eq (v : Value) (vs : list Value) : nat :=
  length (filter (λ x, value_eqb v x = true) vs).

(** Distinct values in order of first appearance ([value_counts] keys). *)
Fixpoint uniques_from (seen : list Value) (vs : list Value) : list Value :=
  match vs with
  | [] => []
  | v :: vs' =>
      if existsb (value_eqb v) seen then uniques_from seen vs'
      else v :: uniques_from (v :: seen) vs'
  end.

Definition dropna_values (vs : list Value) : list Value :=
  filter (λ v, isnull v = false) vs.

(** The values of maximal count, in order of first appearance. *)
Definition modes_unsorted (vs : list Value) : list Value :=
  let nn := dropna_values vs in
  let keys := uniques_from [] nn in
  let max_count := foldr Nat.max 0 ((λ k, count_eq k nn) <$> keys) in
  filter (λ k, count_eq k nn = max_count) keys.

(** The order [np.sort] uses inside one kind of value. *)
Definition value_leb (a b : Value) : bool :=
  match a, b with
  | VNum x, VNum y => Qle_bool x y
  | VStr s, VStr t => String.leb s t
  | VTime s, VTime t => Z.leb s t
  | _, _ => false
  end.

Definition same_kind (a b : Value) : bool :=
  match a, b with
  | VNull, VNull | VNum _, VNum _ | VStr _, VStr _ | VTime _, VTime _ => true
  | _, _ => false
  end.

Fixpoint insert_value (x : Value) (l : list Value) : list Value :=
  match l with
  | [] => [x]
  | y :: l' => if value_leb x y then x :: l else y :: insert_value x l'
  end.

Definition sort_values (l : list Value) : list Value := foldr insert_value [] l.

(** [s.mode()]: the modes are sorted; when they cannot be compared with
    each other (values of different kinds) the sort fails with a warning
    and they stay in order of first appearance. *)
Definition mode (vs : list Value) : list Value :=
  let ms := modes_unsorted vs in
  match ms with
  | [] => []
  | m :: _ => if forallb (same_kind m) ms then sort_values ms else ms
  end.

Definition fits_dtype (d : Dtype) (v : Value) : bool :=
  match d, v with
  | Object, _ => true
  | _, VNull => true
  | Numeric, VNum _ => true
  | Datetime, VTime _ => true
  | _, _ => false
  end.

(** [s.fillna(v)]: nulls are replaced; a numeric or datetime column that
    receives a value of another kind becomes an object column. *)
Definition fillna (v : Value) (s : Series) : Series :=
  {| dtype := if existsb isnull (values s) && negb (fits_dtype (dtype s) v)
              then Object else dtype s;
     values := (λ x, if isnull x then v else x) <$> values s |}.

(** [df.dropna(subset=cols)]: [KeyError] lists the labels that are not
    columns; otherwise rows with a null in any of the columns go. *)
Definition dropna (subset : list string) (df : DataFrame) : result DataFrame :=
  match filter (λ c, has_column df c = false) subset with
  | [] =>
      mret (select_rows
              ((λ r : gmap string Value,
                  forallb (λ c, negb (isnull (r !!! c))) subset) <$> rows df)
              df)
  | missing => Raise (KeyError missing)
  end.

(** [for x in l: df = body(x, df)] *)
Fixpoint for_each {A : Type} (l : list A)
    (body : A → DataFrame → result DataFrame) (df : DataFrame)
  : result DataFrame :=
  match l with
  | [] => mret df
  | x :: l' => df ← body x df; for_each l' body df
  end.

(** ** [DataCleaner._handle_missing_values] *)

Definition _handle_missing_values (df : DataFrame)
    (columns_to_fill_mode columns_to_fill_unknown columns_to_drop_rows_if_na
       : list string)
  : result DataFrame :=
  df ← (if truthy columns_to_fill_mode then
          for_each columns_to_fill_mode (λ col df,
            if has_column df col then
              let mode_val := mode (values (get_col df col)) in
              match mode_val with
              | mode_val_0 :: _ =>
                  mret (set_col df col (fillna mode_val_0 (get_col df col)))
              | [] =>
                  let df := set_col df col (fillna (VStr "unknown") (get_col df col)) in
                  warning (ModeEmpty col);;
                  mret df
              end
            else mret df) df
        else mret df);
  df ← (if truthy columns_to_fill_unknown then
          for_each columns_to_fill_unknown (λ col df,
            if has_column df col then
              mret (set_col df col (fillna (VStr "Unknown") (get_col df col)))
            else mret df) df
        else mret df);
  df ← (if truthy columns_to_drop_rows_if_na then
          let original_rows := len df in
          df ← dropna columns_to_drop_rows_if_na df;
          info (DroppedNaRows (original_rows - len df) columns_to_drop_rows_if_na);;
          mret df
        else mret df);
  mret df.

(** ** [pd.to_numeric], [pd.to_datetime] with [errors="coerce"]

    How pandas reads a number or a date out of a string, and a date out of
    a number, is not part of this repository: the three readers are the
    interface [Readers]. *)

Class Readers : Type := {
  parse_numeric : string → option Q;
  parse_datetime : string → option Z;
  datetime_of_number : Q → option Z
}.

(** [NaT] seen as an [int64]. *)
Definition iNaT : Z := (- 2 ^ 63)%Z.

Section Coercion.
Context `{Readers}.

Definition to_numeric_value (v : Value) : Value :=
  match v with
  | VNull => VNull
  | VNum x => VNum x
  | VStr s => from_option VNum VNull (parse_numeric s)
  | VTime _ => VNull
  end.

(** A numeric column passes through; a datetime column is viewed as its
    [int64] nanoseconds; the cells of an object column are read one by
    one, and what cannot be read becomes NaN. *)
Definition to_numeric (s : Series) : Series :=
  {| dtype := Numeric;
     values :=
       match dtype s with
       | Numeric => values s
       | Datetime =>
           (λ v, match v with
                 | VTime t => VNum (inject_Z t)
                 | VNull => VNum (inject_Z iNaT)
                 | v => to_numeric_value v
                 end) <$> values s
       | Object => to_numeric_value <$> values s
       end |}.

Definition to_datetime_value (v : Value) : Value :=
  match v with
  | VNull => VNull
  | VTime t => VTime t
  | VStr s => from_option VTime VNull (parse_datetime s)
  | VNum x => from_option VTime VNull (datetime_of_number x)
  end.

Definition to_datetime (s : Series) : Series :=
  {| dtype := Datetime; values := to_datetime_value <$> values s |}.

(** [s.isnull().sum()] *)
Definition null_count (s : Series) : nat :=
  length (filter (λ v, isnull v = true) (values s)).

(** [v > pd.Timestamp.now()]: NaT compares false. *)
Definition value_later (v : Value) (now : Z) : bool :=
  match v with VTime t => (now <? t)%Z | _ => false end.

(** [s > pd.Timestamp.now()] *)
Definition later_mask (vs : list Value) (now : Z) : list bool :=
  (λ v, value_later v now) <$> vs.

(** [mask.any()] *)
Definition any (mask : list bool) : bool := existsb id mask.

(** ** [DataCleaner._correct_datatypes]

    [now] is the value [pd.Timestamp.now()] returns.  The source reads the
    clock once for every date column; no pipeline lists more than one, so
    a run reads one instant. *)
Definition _correct_datatypes (now : Z) (df : DataFrame)
    (date_columns numeric_columns : list string) : result DataFrame :=
  df ← (if truthy date_columns then
          for_each date_columns (λ col df,
            if has_column df col then
              let original_nan_count := null_count (get_col df col) in
              let df := set_col df col (to_datetime (get_col df col)) in
              let new_nan_count := null_count (get_col df col) in
              (if bool_decide (original_nan_count < new_nan_count) then
                 warning (DatetimeConversionFailed col
                            (new_nan_count - original_nan_count))
               else mret tt);;
              let future_dates_mask := later_mask (values (get_col df col)) now in
              if any future_dates_mask then
                warning (FutureDatesFound col (mask_sum future_dates_mask));;
                mret (loc_set df future_dates_mask col VNull)
              else mret df
            else mret df) df
        else mret df);
  df ← (if truthy numeric_columns then
          for_each numeric_columns (λ col df,
            if has_column df col then
              let original_nan_count := null_count (get_col df col) in
              let df := set_col df col (to_numeric (get_col df col)) in
              let new_nan_count := null_count (get_col df col) in
              (if bool_decide (original_nan_count < new_nan_count) then
                 warning (NumericConversionFailed col
                            (new_nan_count - original_nan_count))
               else mret tt);;
              mret df
            else mret df) df
        else mret df);
  mret df.
End Coercion.

(** ** [str.strip], [str.title] *)

Definition is_space (c : ascii) : bool :=
  let n := nat_of_ascii c in
  (Nat.leb 9 n && Nat.leb n 13) || (Nat.leb 28 n && Nat.leb n 32).

Definition is_lower (c : ascii) : bool :=
  let n := nat_of_ascii c in Nat.leb 97 n && Nat.leb n 122.

Definition is_upper (c : ascii) : bool :=
  let n := nat_of_ascii c in Nat.leb 65 n && Nat.leb n 90.

Definition is_cased (c : ascii) : bool := is_lower c || is_upper c.

Definition to_upper (c : ascii) : ascii :=
  if is_lower c then ascii_of_nat (nat_of_ascii c - 32) else c.

Definition to_lower (c : ascii) : ascii :=
  if is_upper c then ascii_of_nat (nat_of_ascii c + 32) else c.

Fixpoint lstrip (s : string) : string :=
  match s with
  | EmptyString => EmptyString
  | String c s' => if is_space c then lstrip s' else s
  end.

Fixpoint rstrip (s : string) : string :=
  match s with
  | EmptyString => EmptyString
  | String c s' =>
      match rstrip s' with
      | EmptyString => if is_space c then EmptyString else String c EmptyString
      | t => String c t
      end
  end.

Definition strip (s : string) : string := rstrip (lstrip s).

(** [str.title]: a cased character is upper-cased when the character
    before it is not cased, lower-cased otherwise; other characters are
    copied. *)
Fixpoint title_from (previous_is_cased : bool) (s : string) : string :=
  match s with
  | EmptyString => EmptyString
  | String c s' =>
      if is_cased c then
        String (if previous_is_cased then to_lower c else to_upper c)
               (title_from true s')
      else String c (title_from false s')
  end.

Definition title (s : string) : string := title_from false s.

(** [pd.api.types.is_string_dtype(s)]: an object column all of whose cells
    are strings. *)
Definition is_string_dtype (s : Series) : bool :=
  bool_decide (dtype s = Object)
  && forallb (λ v, match v with VStr _ => true | _ => false end) (values s).

(** [s.str.f()] on a column of strings. *)
Definition str_map (f : string → string) (s : Series) : Series :=
  {| dtype := dtype s;
     values := (λ v, match v with VStr x => VStr (f x) | v => v end) <$> values s |}.

(** ** [DataCleaner._standardize_text_columns]

    Under the guard every cell is a string, on which [astype(str)] is the
    identity. *)
Definition _standardize_text_columns (df : DataFrame) (columns : list string)
  : result DataFrame :=
  for_each columns (λ col df,
    if has_column df col && is_string_dtype (get_col df col) then
      let df := set_col df col (str_map strip (get_col df col)) in
      let df := set_col df col (str_map title (get_col df col)) in
      mret df
    else mret df) df.

(** ** The three pipelines *)

Section Pipelines.
Context `{Readers}.

Definition clean_transactions_data (now : Z) (transactions_df : DataFrame)
  : result DataFrame :=
  let df := transactions_df in
  df ← _handle_duplicates df
         ["transaction_id"; "customer_id"; "transaction_timestamps";
          "order_total"; "item_name"];
  df ← _correct_datatypes now df
         ["transaction_timestamps"] ["order_total"; "quantity"; "item_price"];
  df ← _handle_missing_values df
         ["payment_method"; "order_source"]
         ["item_name"; "item_category"]
         ["order_total"; "quantity"];
  df ← _handle_outliers df "order_total" (Some (1 # 10)) (Some (99 # 100)) "cap";
  df ← _handle_outliers df "quantity" (Some 1%Q) (Some (99 # 100)) "cap";
  df ← _standardize_text_columns df
         ["item_name"; "item_category"; "payment_method"; "order_source"];
  info TransactionsCleaned;;
  mret df.

Definition clean_loyalty_data (now : Z) (loyalty_df : DataFrame)
  : result DataFrame :=
  let df := loyalty_df in
  df ← _handle_duplicates df ["loyalty_member_id"; "customer_id"];
  df ← _correct_datatypes now df [] ["total_loyalty_points"];
  df ← _handle_missing_values df [] ["assigned_discount_group(s)"] [];
  df ← dropna ["customer_id"] df;
  df ← _handle_outliers df "total_loyalty_points" (Some 0%Q) None "cap";
  df ← _standardize_text_columns df ["assigned_discount_group(s)"];
  mret df.

Definition clean_customer_data (now : Z) (customer_df : DataFrame)
  : result DataFrame :=
  let df := customer_df in
  df ← _handle_duplicates df ["customer_id"; "email"];
  df ← _correct_datatypes now df ["DOB"] [];
  df ← _handle_missing_values df []
         ["email"; "phone"; "address"; "gender"] ["customer_id"];
  df ← _handle_outliers df "age" (Some 0%Q) (Some (999 # 1000)) "cap";
  df ← _standardize_text_columns df ["gender"];
  mret df.
End Pipelines.

(** ** Building frames and reading columns, for the examples *)

(** [pd.DataFrame(data, columns=names)] with the dtype of each column. *)
Definition make_frame (cols : list (string * Dtype)) (data : list (list Value))
  : DataFrame :=
  {| columns := list_to_map cols;
     rows := (λ cells, list_to_map (zip (cols.*1) cells)) <$> data |}.

Definition column (df : DataFrame) (col : string) : list Value :=
  values (get_col df col).

(** Readers that read nothing: enough for frames whose cells already have
    their canonical type. *)
Definition no_readers : Readers :=
  {| parse_numeric := λ _, None;
     parse_datetime := λ _, None;
     datetime_of_number := λ _, None |}.

(** ** Vocabulary of the statements *)

(** What a strategy does to the rows selected by a mask: the chain
    [if strategy == "cap": ... elif strategy == "nan": ... elif strategy ==
    "remove": ...] of [_handle_outliers]. *)
Definition apply_strategy (strategy : string) (df : DataFrame)
    (mask : list bool) (col : string) (bound : Value) : DataFrame :=
  if String.eqb strategy "cap" then loc_set df mask col bound
  else if String.eqb strategy "nan" then loc_set df mask col VNull
  else if String.eqb strategy "remove" then select_rows (negb <$> mask) df
  else df.

(** The same on the cells of the column, [flagged] telling which cells the
    mask selects. *)
Definition strategy_effect (strategy : string) (flagged : Value → bool)
    (bound : Value) (vs : list Value) : list Value :=
  if String.eqb strategy "cap" then (λ v, if flagged v then bound else v) <$> vs
  else if String.eqb strategy "nan" then (λ v, if flagged v then VNull else v) <$> vs
  else if String.eqb strategy "remove" then filter (λ v, flagged v = false) vs
  else vs.

(** The column after the lower-bound step. *)
Definition after_lower_bound (strategy : string) (lower_bound : option Q)
    (vs : list Value) : list Value :=
  match lower_bound with
  | Some lb => strategy_effect strategy (λ v, value_ltb v lb) (VNum lb) vs
  | None => vs
  end.

Definition invalid_low_count (lower_bound : option Q) (vs : list Value) : nat :=
  match lower_bound with
  | Some lb => mask_sum (lt_mask vs lb)
  | None => 0
  end.

(** Clipping one cell from below and from above. *)
Definition cap_below (lower_bound : option Q) (v : Value) : Value :=
  match lower_bound with
  | Some lb => if value_ltb v lb then VNum lb else v
  | None => v
  end.

Definition cap_above (limit : option Q) (v : Value) : Value :=
  if value_gtb v limit then limit_value limit else v.

(** A transactions frame with one negative order total. *)
Definition orders_example : DataFrame :=
  make_frame [("order_total", Numeric); ("quantity", Numeric)]
    [[VNum (-100); VNum 1]; [VNum 5; VNum 2]; [VNull; VNum 1]; [VNum 7; VNum 3]].


(** A loyalty frame whose points are still raw: one unreadable, one
    negative. *)
Definition loyalty_example : DataFrame :=
  make_frame
    [("loyalty_member_id", Object); ("customer_id", Object);
     ("total_loyalty_points", Object); ("assigned_discount_group(s)", Object)]
    [[VStr "m1"; VStr "c1"; VStr "n/a"; VStr "GOLD MEMBER"];
     [VStr "m2"; VStr "c2"; VNum (-10); VNull];
     [VStr "m3"; VStr "c3"; VNum 120; VStr " silver member"]].

(** No key of [keys] agrees with a key of [seen] or with an earlier key of
    [keys]. *)
Fixpoint fresh_keys (seen : list (list Value)) (keys : list (list Value)) : Prop :=
  match keys with
  | [] => True
  | k :: keys' => existsb (key_eqb k) seen = false ∧ fresh_keys (k :: seen) keys'
  end.

(** No two rows agree on every column of the key. *)
Definition keys_distinct (subset : list string) (rs : list (gmap string Value))
  : Prop :=
  ∀ i j r r', i ≠ j → rs !! i = Some r → rs !! j = Some r' →
    key_eqb (row_key subset r) (row_key subset r') = false.

(** Two customers entered twice, the second pair under another e-mail. *)
Definition customers_example : DataFrame :=
  make_frame [("customer_id", Object); ("email", Object); ("gender", Object)]
    [[VStr "c1"; VStr "a@x.jp"; VStr "female"];
     [VStr "c2"; VNull; VStr "male"];
     [VStr "c1"; VStr "a@x.jp"; VStr "FEMALE"];
     [VStr "c2"; VNull; VNull];
     [VStr "c2"; VStr "b@x.jp"; VStr "male"]].

Section CoercionVocabulary.
Context `{Readers}.

(** One cell through the date branch of [_correct_datatypes]: read as a
    date, then reset when it lies after [now]. *)
Definition coerce_date (now : Z) (v : Value) : Value :=
  let parsed := to_datetime_value v in
  if value_later parsed now then VNull else parsed.

(** The bodies of the two loops of [_correct_datatypes]. *)
Definition date_step (now : Z) (col : string) (df : DataFrame)
  : result DataFrame :=
  if has_column df col then
    let original_nan_count := null_count (get_col df col) in
    let df := set_col df col (to_datetime (get_col df col)) in
    let new_nan_count := null_count (get_col df col) in
    (if bool_decide (original_nan_count < new_nan_count) then
       warning (DatetimeConversionFailed col
                  (new_nan_count - original_nan_count))
     else mret tt);;
    let future_dates_mask := later_mask (values (get_col df col)) now in
    if any future_dates_mask then
      warning (FutureDatesFound col (mask_sum future_dates_mask));;
      mret (loc_set df future_dates_mask col VNull)
    else mret df
  else mret df.

Definition numeric_step (col : string) (df : DataFrame) : result DataFrame :=
  if has_column df col then
    let original_nan_count := null_count (get_col df col) in
    let df := set_col df col (to_numeric (get_col df col)) in
    let new_nan_count := null_count (get_col df col) in
    (if bool_decide (original_nan_count < new_nan_count) then
       warning (NumericConversionFailed col
                  (new_nan_count - original_nan_count))
     else mret tt);;
    mret df
  else mret df.
End CoercionVocabulary.

(** A customers frame with a birth date in the future; instants are
    counted in days here, [now] being day 20000. *)
Definition births_example : DataFrame :=
  make_frame [("customer_id", Object); ("DOB", Object)]
    [[VStr "c1"; VTime 12000]; [VStr "c2"; VTime 21915];
     [VStr "c3"; VStr "yesterday"]; [VStr "c4"; VTime 20000]].

(** [s.fillna(v)] on the cells. *)
Definition fill_nulls (v : Value) (vs : list Value) : list Value :=
  (λ x, if isnull x then v else x) <$> vs.

(** The cells of a column after the mode-fill branch of
    [_handle_missing_values]. *)
Definition mode_fill_values (vs : list Value) : list Value :=
  match mode vs with
  | mode_val_0 :: _ => fill_nulls mode_val_0 vs
  | [] => fill_nulls (VStr "unknown") vs
  end.



(** The bodies of the two fill loops of [_handle_missing_values]. *)
Definition mode_step (col : string) (df : DataFrame) : result DataFrame :=
  if has_column df col then
    let mode_val := mode (values (get_col df col)) in
    match mode_val with
    | mode_val_0 :: _ =>
        mret (set_col df col (fillna mode_val_0 (get_col df col)))
    | [] =>
        let df := set_col df col (fillna (VStr "unknown") (get_col df col)) in
        warning (ModeEmpty col);;
        mret df
    end
  else mret df.

Definition unknown_step (col : string) (df : DataFrame) : result DataFrame :=
  if has_column df col then
    mret (set_col df col (fillna (VStr "Unknown") (get_col df col)))
  else mret df.

(** Order sources that were never recorded. *)
Definition sources_example : DataFrame :=
  make_frame [("order_source", Object); ("order_total", Numeric)]
    [[VNull; VNum 120]; [VNull; VNum 80]].

(** The body of the loop of [_standardize_text_columns]. *)
Definition text_step (col : string) (df : DataFrame) : result DataFrame :=
  if has_column df col && is_string_dtype (get_col df col) then
    let df := set_col df col (str_map strip (get_col df col)) in
    let df := set_col df col (str_map title (get_col df col)) in
    mret df
  else mret df.








(** Loyalty rows with the columns the generator writes: the customer is
    under [customer_identifiers], there is no [customer_id] column. *)
Definition generated_loyalty_example : DataFrame :=
  make_frame
    [("customer_identifiers", Object); ("email", Object);
     ("total_loyalty_points", Numeric); ("assigned_discount_group(s)", Object)]
    [[VStr "c1"; VStr "a@x.jp"; VNum 4200; VStr "GOLD MEMBER"];
     [VStr "c2"; VStr "b@x.jp"; VNum (-10); VStr "Regular"]].

(** What a log reports: rows removed as duplicates, cells handled as
    outliers. *)
Definition duplicates_removed (log : list LogRecord) : nat :=
  sum_list_with (λ r, match r with
                      | INFO (DroppedDuplicates n _) => n
                      | _ => 0
                      end) log.

Definition outliers_handled (log : list LogRecord) : nat :=
  sum_list_with (λ r, match r with
                      | INFO (HandledOutliers _ n _) => n
                      | _ => 0
                      end) log.

Definition quiet (log : list LogRecord) : Prop :=
  duplicates_removed log = 0 ∧ outliers_handled log = 0.

(** [df'] comes from [df] by removing rows and rewriting cells of the
    columns [touched]: the columns are the same, an untouched column keeps
    its dtype and gains no value, the keys over untouched columns are
    among the former ones, in order. *)
Definition evolves (touched : list string) (df df' : DataFrame) : Prop :=
  (∀ c, has_column df' c = has_column df c) ∧
  (∀ c, c ∉ touched →
     dtype (get_col df' c) = dtype (get_col df c) ∧
     ∀ v, v ∈ column df' c → v ∈ column df c) ∧
  (∀ subset, (∀ c, c ∈ subset → c ∉ touched) →
     (row_key subset <$> rows df') `sublist_of` (row_key subset <$> rows df)).

(** What the loyalty pipeline establishes. *)
Definition loyalty_cleaned (df : DataFrame) : Prop :=
  has_column df "customer_id" = true ∧
  ((∀ c, c ∈ ["loyalty_member_id"; "customer_id"] → has_column df c = true) →
   fresh_keys [] (row_key ["loyalty_member_id"; "customer_id"] <$> rows df)) ∧
  (has_column df "total_loyalty_points" = true →
   dtype (get_col df "total_loyalty_points") = Numeric ∧
   ∀ x, VNum x ∈ column df "total_loyalty_points" → (0 <= x)%Q).

(** Two orders, nothing to clean but the upper tail. *)
Definition two_orders_example : DataFrame :=
  make_frame [("order_total", Numeric); ("quantity", Numeric)]
    [[VNum 1; VNum 1]; [VNum 2; VNum 1]].

(** The same customer twice, once without e-mail, once with the text
    sentinel-fill writes. *)
Definition unknown_emails_example : DataFrame :=
  make_frame [("customer_id", Object); ("email", Object)]
    [[VStr "c1"; VNull]; [VStr "c1"; VStr "Unknown"]].

(** [df'] comes from [df] by rewriting cells of the columns [touched]
    only: the same rows in number and in their other cells. *)
Definition rewrites (touched : list string) (df df' : DataFrame) : Prop :=
  len df' = len df ∧
  (∀ c, has_column df' c = has_column df c) ∧
  (∀ c, c ∉ touched → get_col df' c = get_col df c) ∧
  (∀ subset, (∀ c, c ∈ subset → c ∉ touched) →
     row_key subset <$> rows df' = row_key subset <$> rows df).

(** A log of warnings only. *)
Definition only_warnings (log : list LogRecord) : Prop :=
  ∀ r, r ∈ log → ∃ m, r = WARNING m.

(** The rows a log reports as dropped for a null. *)
Definition na_rows_dropped (log : list LogRecord) : nat :=
  sum_list_with (λ r, match r with
                      | INFO (DroppedNaRows n _) => n
                      | _ => 0
                      end) log.


(** No cell of the column is the null marker. *)
Definition no_nulls (df : DataFrame) (col : string) : Prop :=
  ∀ v, v ∈ column df col → isnull v = false.

(** Payment methods with gaps, next to order totals of which one is
    missing. *)
Definition gaps_example : DataFrame :=
  make_frame
    [("payment_method", Object); ("item_name", Object); ("order_total", Numeric)]
    [[VStr "cash"; VNull; VNum 120];
     [VNull; VStr "udon"; VNull];
     [VStr "cash"; VStr "miso"; VNum 80];
     [VNull; VNull; VNum 95]].

(** A loyalty row without customer. *)
Definition anonymous_loyalty_example : DataFrame :=
  make_frame
    [("loyalty_member_id", Object); ("customer_id", Object);
     ("total_loyalty_points", Numeric)]
    [[VStr "m1"; VStr "c1"; VNum 10]; [VStr "m2"; VNull; VNum 20]].

(** * Properties *)

#[global] Arguments get_col : simpl never.
#[global] Arguments set_col : simpl never.
#[global] Arguments loc_set : simpl never.
#[global] Arguments select_rows : simpl never.
#[global] Arguments has_column : simpl never.
#[global] Arguments column : simpl never.
#[global] Arguments len : simpl never.
#[global] Arguments quantile : simpl never.

(** ** The monad *)

Lemma bind_Ok {A B : Type} (m : result A) (f : A → result B) b l :
  m ≫= f = Ok b l ↔
  ∃ a l1 l2, m = Ok a l1 ∧ f a = Ok b l2 ∧ l = l1 ++ l2.
Proof.
  unfold mbind, result_bind. split.
  - destruct m as [a l1|e]; [|done].
    destruct (f a) as [b' l2|e] eqn:Hf; [|done].
    intros [= -> <-]. by exists a, l1, l2.
  - intros (a & l1 & l2 & -> & -> & ->). done.
Qed.

(** ** Frames: reading back what was written *)

Lemma length_column df col : length (values (get_col df col)) = len df.
Proof. unfold get_col, len. simpl. by rewrite length_fmap. Qed.

Lemma values_zip_insert_eq (col : string) (rs : list (gmap string Value)) vs :
  length vs = length rs →
  (λ r : gmap string Value, r !!! col)
    <$> zip_with (λ (r : gmap string Value) v, <[col := v]> r) rs vs = vs.
Proof.
  revert vs. induction rs as [|r rs IH]; intros [|v vs] Hlen; simpl in *; try done.
  rewrite lookup_total_insert_eq. f_equal. apply IH. lia.
Qed.

Lemma values_zip_insert_ne (col col' : string) (rs : list (gmap string Value)) vs :
  col ≠ col' → length vs = length rs →
  (λ r : gmap string Value, r !!! col')
    <$> zip_with (λ (r : gmap string Value) v, <[col := v]> r) rs vs
  = (λ r : gmap string Value, r !!! col') <$> rs.
Proof.
  intros Hne. revert vs.
  induction rs as [|r rs IH]; intros [|v vs] Hlen; simpl in *; try done.
  rewrite lookup_total_insert_ne by done. f_equal. apply IH. lia.
Qed.

Lemma get_set_col_eq df col s :
  length (values s) = len df → get_col (set_col df col s) col = s.
Proof.
  intros Hlen. destruct s as [d vs]. unfold get_col, set_col. simpl in *.
  rewrite lookup_insert_eq. simpl. f_equal. by apply values_zip_insert_eq.
Qed.

Lemma get_set_col_ne df col col' s :
  col ≠ col' → length (values s) = len df →
  get_col (set_col df col s) col' = get_col df col'.
Proof.
  intros Hne Hlen. unfold get_col, set_col. simpl.
  rewrite lookup_insert_ne by done. f_equal. by apply values_zip_insert_ne.
Qed.

Lemma len_set_col df col s :
  length (values s) = len df → len (set_col df col s) = len df.
Proof.
  intros Hlen. unfold len, set_col. simpl. rewrite length_zip_with.
  unfold len in Hlen. lia.
Qed.

Lemma has_column_set_col df col s col' :
  has_column (set_col df col s) col' = bool_decide (col = col') || has_column df col'.
Proof.
  unfold has_column, set_col. simpl.
  destruct (decide (col = col')) as [->|Hne].
  - rewrite lookup_insert_eq, bool_decide_eq_true_2 by done.
    rewrite bool_decide_eq_true_2; eauto.
  - rewrite lookup_insert_ne by done. by rewrite (bool_decide_eq_false_2 (col = col')).
Qed.

Lemma rows_loc_set_fmap (p : Value → bool) col v (rs : list (gmap string Value)) :
  (λ r : gmap string Value, r !!! col)
    <$> zip_with (λ (b : bool) (r : gmap string Value),
                    if b then <[col := v]> r else r)
          (p <$> ((λ r : gmap string Value, r !!! col) <$> rs)) rs
  = (λ x, if p x then v else x) <$> ((λ r : gmap string Value, r !!! col) <$> rs).
Proof.
  induction rs as [|r rs IH]; [done|].
  rewrite !fmap_cons. cbn [zip_with]. rewrite !fmap_cons, IH. f_equal.
  destruct (p (r !!! col)); [|done]. by rewrite lookup_total_insert_eq.
Qed.

Lemma rows_loc_set_fmap_ne (mask : list bool) col col' v
    (rs : list (gmap string Value)) :
  col ≠ col' → length mask = length rs →
  (λ r : gmap string Value, r !!! col')
    <$> zip_with (λ (b : bool) (r : gmap string Value),
                    if b then <[col := v]> r else r) mask rs
  = (λ r : gmap string Value, r !!! col') <$> rs.
Proof.
  intros Hne. revert mask.
  induction rs as [|r rs IH]; intros [|b mask] Hlen; simpl in *; try done.
  rewrite IH by lia. f_equal.
  destruct b; [|done]. by rewrite lookup_total_insert_ne.
Qed.

(** [df.loc[s.map(p), col] = v] rewrites the column cell by cell. *)
Lemma get_col_loc_set df (p : Value → bool) col v :
  get_col (loc_set df (p <$> values (get_col df col)) col v) col
  = {| dtype := dtype (get_col df col);
       values := (λ x, if p x then v else x) <$> values (get_col df col) |}.
Proof. unfold get_col, loc_set. simpl. f_equal. apply rows_loc_set_fmap. Qed.

Lemma get_col_loc_set_ne df mask col col' v :
  col ≠ col' → length mask = len df →
  get_col (loc_set df mask col v) col' = get_col df col'.
Proof.
  intros Hne Hlen. unfold get_col, loc_set. simpl. f_equal.
  by apply rows_loc_set_fmap_ne.
Qed.

Lemma len_loc_set df mask col v :
  length mask = len df → len (loc_set df mask col v) = len df.
Proof.
  intros Hlen. unfold len, loc_set in *. simpl. rewrite length_zip_with. lia.
Qed.

Lemma has_column_loc_set df mask col v col' :
  has_column (loc_set df mask col v) col' = has_column df col'.
Proof. done. Qed.

Lemma bool_index_fmap {A B : Type} (f : A → B) mask (l : list A) :
  bool_index mask (f <$> l) = f <$> bool_index mask l.
Proof.
  revert l. induction mask as [|b mask IH]; intros [|x l]; simpl; try done.
  destruct b; simpl; by rewrite IH.
Qed.

Lemma bool_index_filter {A : Type} (p : A → bool) (l : list A) :
  bool_index (p <$> l) l = filter (λ x, p x = true) l.
Proof.
  induction l as [|x l IH]; [done|].
  rewrite fmap_cons. cbn [bool_index]. rewrite IH.
  destruct (p x) eqn:Hp.
  - by rewrite filter_cons_True.
  - rewrite filter_cons_False; [done | congruence].
Qed.

(** [df[s.map(p)][col]] is the filtered column. *)
Lemma get_col_select_rows df mask col :
  get_col (select_rows mask df) col
  = {| dtype := dtype (get_col df col);
       values := bool_index mask (values (get_col df col)) |}.
Proof. unfold get_col, select_rows. simpl. by rewrite bool_index_fmap. Qed.

Lemma has_column_select_rows df mask col :
  has_column (select_rows mask df) col = has_column df col.
Proof. done. Qed.

(** ** The quantile lies between the values it is computed from *)

Lemma elem_of_insert_sorted x y l : x ∈ insert_sorted y l → x = y ∨ x ∈ l.
Proof.
  induction l as [|z l IH]; simpl.
  - rewrite list_elem_of_singleton. auto.
  - destruct (Qle_bool y z).
    + rewrite elem_of_cons. tauto.
    + rewrite !elem_of_cons. intros [->|Hin]; [auto|].
      destruct (IH Hin); auto.
Qed.

Lemma elem_of_sort_Q x l : x ∈ sort_Q l → x ∈ l.
Proof.
  induction l as [|y l IH]; simpl; [done|].
  intros Hin. apply elem_of_insert_sorted in Hin as [->|Hin].
  - left.
  - right. by apply IH.
Qed.



Lemma elem_of_numbers x vs : x ∈ numbers vs ↔ VNum x ∈ vs.
Proof.
  unfold numbers. rewrite list_elem_of_omap. split.
  - intros ([]&Hin&Heq); simplify_eq. done.
  - intros Hin. by exists (VNum x).
Qed.

Lemma nth_elem_of_default {A : Type} (a : list A) (d : A) i : d ∈ a → nth i a d ∈ a.
Proof.
  intros Hd. destruct (decide (i < length a)) as [Hlt|Hge].
  - apply list_elem_of_In. by apply nth_In.
  - rewrite nth_overflow by lia. done.
Qed.

Lemma Qfrac_bounds (x : Q) :
  (0 <= x - inject_Z (Qfloor x))%Q ∧ (x - inject_Z (Qfloor x) <= 1)%Q.
Proof.
  pose proof (Qfloor_le x) as Hlo. pose proof (Qlt_floor x) as Hhi.
  rewrite inject_Z_plus in Hhi. change (inject_Z 1) with 1%Q in Hhi.
  split; lra.
Qed.

Lemma convex_ge (lb a b f : Q) :
  (lb <= a)%Q → (lb <= b)%Q → (0 <= f)%Q → (f <= 1)%Q →
  (lb <= a + (b - a) * f)%Q.
Proof.
  intros Ha Hb H0 H1.
  assert (0 <= (a - lb) * (1 - f))%Q as H2 by (apply Qmult_le_0_compat; lra).
  assert (0 <= (b - lb) * f)%Q as H3 by (apply Qmult_le_0_compat; lra).
  lra.
Qed.

Lemma convex_le (ub a b f : Q) :
  (a <= ub)%Q → (b <= ub)%Q → (0 <= f)%Q → (f <= 1)%Q →
  (a + (b - a) * f <= ub)%Q.
Proof.
  intros Ha Hb H0 H1.
  assert (0 <= (ub - a) * (1 - f))%Q as H2 by (apply Qmult_le_0_compat; lra).
  assert (0 <= (ub - b) * f)%Q as H3 by (apply Qmult_le_0_compat; lra).
  lra.
Qed.

Lemma quantile_sorted_ge a q lb u :
  (∀ x, x ∈ a → (lb <= x)%Q) → quantile_sorted a q = Some u → (lb <= u)%Q.
Proof.
  intros Hall. destruct a as [|x0 a']; [done|].
  remember (x0 :: a') as a eqn:Ha. unfold quantile_sorted. rewrite Ha at 1.
  intros Heq. injection Heq as <-. rewrite Qred_correct.
  assert (x0 ∈ a) as Hx0 by (rewrite Ha; left).
  destruct (Qfrac_bounds (inject_Z (Z.of_nat (length a - 1)) * q)).
  apply convex_ge; try done; by apply Hall, nth_elem_of_default.
Qed.

Lemma quantile_sorted_le a q ub u :
  (∀ x, x ∈ a → (x <= ub)%Q) → quantile_sorted a q = Some u → (u <= ub)%Q.
Proof.
  intros Hall. destruct a as [|x0 a']; [done|].
  remember (x0 :: a') as a eqn:Ha. unfold quantile_sorted. rewrite Ha at 1.
  intros Heq. injection Heq as <-. rewrite Qred_correct.
  assert (x0 ∈ a) as Hx0 by (rewrite Ha; left).
  destruct (Qfrac_bounds (inject_Z (Z.of_nat (length a - 1)) * q)).
  apply convex_le; try done; by apply Hall, nth_elem_of_default.
Qed.


Lemma quantile_Ok vs q :
  (0 <= q)%Q → (q <= 1)%Q →
  quantile vs q = Ok (quantile_sorted (sort_Q (numbers vs)) q) [].
Proof.
  intros H0 H1. unfold quantile.
  apply Qle_bool_iff in H0 as ->. apply Qle_bool_iff in H1 as ->. done.
Qed.

(** A lower bound of the numbers of a column is a lower bound of each of
    its quantiles. *)
Lemma quantile_ge vs q lb u :
  (∀ x, VNum x ∈ vs → (lb <= x)%Q) →
  quantile_sorted (sort_Q (numbers vs)) q = Some u → (lb <= u)%Q.
Proof.
  intros Hall. apply quantile_sorted_ge.
  intros x Hin. by apply Hall, elem_of_numbers, elem_of_sort_Q.
Qed.



Lemma Qltb_ge x y : Qltb x y = false ↔ (y <= x)%Q.
Proof. unfold Qltb. by rewrite negb_false_iff, Qle_bool_iff. Qed.

(** ** [_handle_outliers], step by step *)

Lemma bool_index_negb_filter {A : Type} (p : A → bool) (l : list A) :
  bool_index (negb <$> (p <$> l)) l = filter (λ x, p x = false) l.
Proof.
  induction l as [|x l IH]; [done|].
  rewrite !fmap_cons. cbn [bool_index]. rewrite IH.
  destruct (p x) eqn:Hp; simpl.
  - rewrite filter_cons_False; [done | congruence].
  - by rewrite filter_cons_True.
Qed.

Lemma column_apply_strategy strategy df (p : Value → bool) col bound :
  column (apply_strategy strategy df (p <$> column df col) col bound) col
  = strategy_effect strategy p bound (column df col).
Proof.
  unfold apply_strategy, strategy_effect, column.
  destruct (String.eqb strategy "cap"); [by rewrite get_col_loc_set|].
  destruct (String.eqb strategy "nan"); [by rewrite get_col_loc_set|].
  destruct (String.eqb strategy "remove"); [|done].
  rewrite get_col_select_rows. simpl. apply bool_index_negb_filter.
Qed.

Lemma dtype_apply_strategy strategy df mask col bound :
  dtype (get_col (apply_strategy strategy df mask col bound) col)
  = dtype (get_col df col).
Proof.
  unfold apply_strategy.
  by repeat (case_match; try done).
Qed.

Lemma has_column_apply_strategy strategy df mask col bound col' :
  has_column (apply_strategy strategy df mask col bound) col' = has_column df col'.
Proof. unfold apply_strategy. by repeat case_match. Qed.

(** The body of [_handle_outliers] on a numeric column that is present. *)
Lemma handle_outliers_present df col lower_bound upper_quantile strategy :
  has_column df col = true → dtype (get_col df col) = Numeric →
  _handle_outliers df col lower_bound upper_quantile strategy =
    let df1 :=
      match lower_bound with
      | Some lb => apply_strategy strategy df (lt_mask (column df col) lb) col (VNum lb)
      | None => df
      end in
    let n1 := invalid_low_count lower_bound (column df col) in
    match upper_quantile with
    | Some q =>
        match quantile (column df1 col) q with
        | Ok limit _ =>
            Ok (apply_strategy strategy df1 (gt_mask (column df1 col) limit) col
                  (limit_value limit))
               [INFO (HandledOutliers col
                        (n1 + mask_sum (gt_mask (column df1 col) limit)) strategy)]
        | Raise e => Raise e
        end
    | None => Ok df1 [INFO (HandledOutliers col n1 strategy)]
    end.
Proof.
  intros Hc Hd.
  unfold _handle_outliers, is_numeric_dtype, apply_strategy, invalid_low_count,
    quantile, column.
  rewrite Hc, Hd.
  destruct lower_bound as [lb|], upper_quantile as [q|];
    destruct (String.eqb strategy "cap"), (String.eqb strategy "nan"),
      (String.eqb strategy "remove");
    try destruct (Qle_bool 0 q && Qle_bool q 1); reflexivity.
Qed.

Lemma handle_outliers_absent df col lower_bound upper_quantile strategy :
  has_column df col = false →
  _handle_outliers df col lower_bound upper_quantile strategy = Ok df [].
Proof. intros Hc. unfold _handle_outliers. by rewrite Hc. Qed.

(** ** Clipping keeps a column inside its bounds *)

Lemma after_lower_bound_cap lower_bound (vs : list Value) :
  after_lower_bound "cap" lower_bound vs = cap_below lower_bound <$> vs.
Proof.
  destruct lower_bound as [lb|]; simpl; [done|].
  by rewrite list_fmap_id.
Qed.

Lemma cap_below_ge lb (vs : list Value) x :
  VNum x ∈ cap_below (Some lb) <$> vs → (lb <= x)%Q.
Proof.
  intros (w & Heq & _)%list_elem_of_fmap. simpl in Heq.
  destruct (value_ltb w lb) eqn:Hlt.
  - injection Heq as ->. apply Qle_refl.
  - subst w. simpl in Hlt. by apply Qltb_ge.
Qed.




(** ** The upper limit is computed after the lower-bound step *)




(** The order of the two steps matters: once [-100] has been clipped to
    [0.1] the 0.99 quantile of the order totals is another number. *)
Example upper_limit_depends_on_lower_step :
  quantile (column orders_example "order_total") (99 # 100)
    = Ok (Some (174 # 25)) [] ∧
  quantile (after_lower_bound "remove" (Some (1 # 10))
              (column orders_example "order_total")) (99 # 100)
    = Ok (Some (349 # 50)) [].
Proof. split; vm_compute; reflexivity. Qed.

(** ** Nulls are invisible to the outlier pass *)







(** ** Duplicate elimination keeps the first row of every key *)

Lemma value_eqb_sym a b : value_eqb a b = value_eqb b a.
Proof.
  destruct a, b; simpl; try done.
  - apply Qeq_bool_comm.
  - apply String.eqb_sym.
  - apply Z.eqb_sym.
Qed.

Lemma key_eqb_sym k1 k2 : key_eqb k1 k2 = key_eqb k2 k1.
Proof.
  revert k2. induction k1 as [|a k1 IH]; intros [|b k2]; simpl; try done.
  by rewrite value_eqb_sym, IH.
Qed.

Lemma existsb_false {A : Type} (p : A → bool) (l : list A) :
  existsb p l = false ↔ ∀ x, x ∈ l → p x = false.
Proof.
  induction l as [|y l IH]; simpl.
  - split; [|done]. by intros _ x ?%elem_of_nil.
  - rewrite orb_false_iff, IH. split.
    + intros [Hy Hl] x [->|Hin]%elem_of_cons; auto.
    + intros Hall. split; [apply Hall; left | intros x Hx; apply Hall; by right].
Qed.

Lemma length_duplicated_from seen keys :
  length (duplicated_from seen keys) = length keys.
Proof.
  revert seen. induction keys as [|k keys IH]; intros seen; simpl; [done|].
  by rewrite IH.
Qed.

(** A row is marked exactly when its key agrees with an earlier one. *)
Lemma duplicated_from_lookup seen keys i k :
  keys !! i = Some k →
  duplicated_from seen keys !! i
  = Some (existsb (key_eqb k) (reverse (take i keys) ++ seen)).
Proof.
  revert seen i. induction keys as [|k0 keys IH]; intros seen [|i] Hi;
    simpl in *; try done.
  - by injection Hi as ->.
  - rewrite (IH _ _ Hi). by rewrite reverse_cons, <- app_assoc.
Qed.

Lemma fresh_keys_weaken seen seen' keys :
  (∀ s, s ∈ seen → s ∈ seen') → fresh_keys seen' keys → fresh_keys seen keys.
Proof.
  revert seen seen'. induction keys as [|k keys IH]; intros seen seen' Hsub;
    simpl; [done|].
  intros [Hk Hrest]. split.
  - apply existsb_false. intros s Hs. by eapply existsb_false, Hsub.
  - eapply IH; [|exact Hrest].
    intros s [->|Hs]%elem_of_cons; [left | right; by apply Hsub].
Qed.

Lemma fresh_keys_sublist seen keys keys' :
  keys' `sublist_of` keys → fresh_keys seen keys → fresh_keys seen keys'.
Proof.
  intros Hsub. revert seen.
  induction Hsub as [|k l1 l2 _ IH|k l1 l2 _ IH]; intros seen; simpl; [done| |].
  - intros [Hk Hrest]. split; [done | by apply IH].
  - intros [_ Hrest]. apply IH. eapply fresh_keys_weaken; [|exact Hrest].
    intros s Hs. by right.
Qed.

Lemma fresh_keys_lookup seen keys :
  fresh_keys seen keys →
  (∀ j b s, keys !! j = Some b → s ∈ seen → key_eqb b s = false) ∧
  (∀ i j a b, i < j → keys !! i = Some a → keys !! j = Some b →
     key_eqb b a = false).
Proof.
  revert seen. induction keys as [|k keys IH]; intros seen; simpl.
  - intros _. split; intros; by simplify_list_eq.
  - intros [Hk Hrest]. destruct (IH _ Hrest) as [IH1 IH2]. split.
    + intros [|j] b s Hj Hs; simpl in Hj.
      * injection Hj as ->. by eapply existsb_false in Hk.
      * eapply IH1; [exact Hj | by right].
    + intros [|i] [|j] a b Hlt Hi Hj; simpl in *; try lia.
      * injection Hi as ->. eapply IH1; [exact Hj | left].
      * eapply IH2; [|exact Hi|exact Hj]. lia.
Qed.

Lemma fresh_keys_distinct subset (rs : list (gmap string Value)) :
  fresh_keys [] (row_key subset <$> rs) → keys_distinct subset rs.
Proof.
  intros [_ Hpair]%fresh_keys_lookup i j r r' Hne Hi Hj.
  assert ((row_key subset <$> rs) !! i = Some (row_key subset r)) as Hi'
    by by rewrite list_lookup_fmap, Hi.
  assert ((row_key subset <$> rs) !! j = Some (row_key subset r')) as Hj'
    by by rewrite list_lookup_fmap, Hj.
  destruct (decide (i < j)).
  - rewrite key_eqb_sym. by eapply (Hpair i j).
  - eapply (Hpair j i); [lia|done..].
Qed.

(** What [drop_duplicates] keeps has fresh keys. *)
Lemma kept_rows_fresh subset seen (rs : list (gmap string Value)) :
  fresh_keys seen
    (row_key subset
       <$> bool_index (negb <$> duplicated_from seen (row_key subset <$> rs)) rs).
Proof.
  revert seen. induction rs as [|r rs IH]; intros seen; [done|].
  rewrite fmap_cons. cbn [duplicated_from]. rewrite fmap_cons. cbn [bool_index].
  destruct (existsb (key_eqb (row_key subset r)) seen) eqn:Hseen; simpl.
  - eapply fresh_keys_weaken; [|apply IH]. intros s Hs. by right.
  - split; [done | apply IH].
Qed.

(** Rows with fresh keys are all kept. *)
Lemma duplicated_from_fresh seen keys :
  fresh_keys seen keys → duplicated_from seen keys = (λ _, false) <$> keys.
Proof.
  revert seen. induction keys as [|k keys IH]; intros seen; simpl; [done|].
  intros [-> Hrest]. by rewrite (IH _ Hrest).
Qed.

Lemma handle_duplicates_present df subset_cols :
  subset_cols ≠ [] →
  (∀ c, c ∈ subset_cols → has_column df c = true) →
  _handle_duplicates df subset_cols
  = Ok (drop_duplicates subset_cols df)
       [INFO (DroppedDuplicates
                (len df - len (drop_duplicates subset_cols df)) subset_cols)].
Proof.
  intros Hne Hall. unfold _handle_duplicates.
  assert (truthy subset_cols = true) as -> by by destruct subset_cols.
  assert (forallb (has_column df) subset_cols = true) as ->.
  { apply forallb_forall. intros c Hc. by apply Hall, list_elem_of_In. }
  done.
Qed.

(** C4: when the key is not empty and all its columns are present,
    duplicate elimination keeps a row exactly when no earlier row agrees
    with it on every column of the key (so the first row of every key is
    the one retained, rows keep their order), and no two rows that remain
    agree on every column of the key. *)
Theorem handle_duplicates_keeps_first df subset_cols :
  subset_cols ≠ [] →
  (∀ c, c ∈ subset_cols → has_column df c = true) →
  ∃ keep df',
    _handle_duplicates df subset_cols
      = Ok df' [INFO (DroppedDuplicates (len df - len df') subset_cols)] ∧
    df' = select_rows keep df ∧
    length keep = len df ∧
    (∀ i r, rows df !! i = Some r →
       (keep !! i = Some true ↔
        ∀ j r', j < i → rows df !! j = Some r' →
          key_eqb (row_key subset_cols r) (row_key subset_cols r') = false)) ∧
    keys_distinct subset_cols (rows df').
Proof.
  intros Hne Hall. rewrite handle_duplicates_present by done.
  exists (negb <$> duplicated subset_cols df), (drop_duplicates subset_cols df).
  split; [done|]. split; [done|]. split; [|split].
  - unfold duplicated, len. by rewrite length_fmap, length_duplicated_from, length_fmap.
  - intros i r Hi. unfold duplicated.
    rewrite list_lookup_fmap.
    rewrite (duplicated_from_lookup _ _ i (row_key subset_cols r))
      by by rewrite list_lookup_fmap, Hi.
    rewrite app_nil_r. simpl. split.
    + intros [= Hex%negb_true_iff] j r' Hlt Hj.
      eapply existsb_false in Hex; [exact Hex|].
      apply elem_of_reverse, elem_of_take. exists j. split; [|done].
      by rewrite list_lookup_fmap, Hj.
    + intros Hfirst. f_equal. apply negb_true_iff, existsb_false.
      intros k (j & Hj & Hlt)%elem_of_reverse%elem_of_take.
      rewrite list_lookup_fmap in Hj.
      destruct (rows df !! j) as [r'|] eqn:Hr'; [|done].
      injection Hj as <-. by eapply Hfirst.
  - apply fresh_keys_distinct. unfold drop_duplicates, duplicated, select_rows.
    simpl. apply kept_rows_fresh.
Qed.

Lemma handle_duplicates_keeps_first_witness :
  ∃ keep df',
    _handle_duplicates customers_example ["customer_id"; "email"]
      = Ok df' [INFO (DroppedDuplicates (len customers_example - len df')
                        ["customer_id"; "email"])] ∧
    df' = select_rows keep customers_example ∧
    length keep = len customers_example ∧
    (∀ i r, rows customers_example !! i = Some r →
       (keep !! i = Some true ↔
        ∀ j r', j < i → rows customers_example !! j = Some r' →
          key_eqb (row_key ["customer_id"; "email"] r)
                  (row_key ["customer_id"; "email"] r') = false)) ∧
    keys_distinct ["customer_id"; "email"] (rows df').
Proof.
  apply (handle_duplicates_keeps_first customers_example ["customer_id"; "email"]).
  - discriminate.
  - intros c Hc. apply list_elem_of_In in Hc. simpl in Hc.
    destruct Hc as [<-|[<-|[]]]; vm_compute; reflexivity.
Defined.

(** On the example the two repeated rows go and the first of each pair
    stays; the null e-mails count as equal. *)
Example handle_duplicates_customers :
  ∃ df' log,
    _handle_duplicates customers_example ["customer_id"; "email"] = Ok df' log ∧
    log = [INFO (DroppedDuplicates 2 ["customer_id"; "email"])] ∧
    column df' "gender" = [VStr "female"; VStr "male"; VStr "male"].
Proof. eexists _, _. repeat split; vm_compute; reflexivity. Qed.

(** ** Loops *)

Lemma for_each_cons {A : Type} (x : A) l body df :
  for_each (x :: l) body df = (body x df ≫= for_each l body).
Proof. done. Qed.

(** A loop whose body always returns and keeps an invariant returns and
    keeps it. *)
Lemma for_each_invariant {A : Type} (P : DataFrame → Prop) (l : list A) body df :
  (∀ x df, x ∈ l → P df → ∃ df' log, body x df = Ok df' log ∧ P df') →
  P df → ∃ df' log, for_each l body df = Ok df' log ∧ P df'.
Proof.
  revert df. induction l as [|x l IH]; intros df Hbody HP.
  - by exists df, [].
  - destruct (Hbody x df) as (df1 & l1 & Hx & HP1); [left|done|].
    destruct (IH df1) as (df2 & l2 & Hl & HP2); [|done|].
    { intros y df' Hy. apply Hbody. by right. }
    exists df2, (l1 ++ l2). split; [|done].
    rewrite for_each_cons, Hx. simpl. by rewrite Hl.
Qed.

(** ** No date of a cleaned column lies in the future *)

Section CoercionProperties.
Context `{Readers}.

Lemma correct_datatypes_steps now df date_columns numeric_columns :
  _correct_datatypes now df date_columns numeric_columns =
    (df ← for_each date_columns (date_step now) df;
     df ← for_each numeric_columns numeric_step df;
     mret df).
Proof.
  unfold _correct_datatypes.
  by destruct date_columns, numeric_columns.
Qed.

Lemma length_to_datetime s : length (values (to_datetime s)) = length (values s).
Proof. unfold to_datetime. simpl. by rewrite length_fmap. Qed.

Lemma length_to_numeric s : length (values (to_numeric s)) = length (values s).
Proof. unfold to_numeric. simpl. destruct (dtype s); by rewrite ?length_fmap. Qed.

Lemma coerce_date_no_future now (vs : list Value) :
  any (later_mask (to_datetime_value <$> vs) now) = false →
  to_datetime_value <$> vs = coerce_date now <$> vs.
Proof.
  unfold any, later_mask. induction vs as [|v vs IH]; [done|].
  rewrite !fmap_cons. simpl. intros [Hv Hvs]%orb_false_iff.
  rewrite (IH Hvs). unfold coerce_date at 2. by rewrite Hv.
Qed.

(** The date step on its own column. *)
Lemma date_step_present now col df :
  has_column df col = true →
  ∃ df' log,
    date_step now col df = Ok df' log ∧
    get_col df' col
    = {| dtype := Datetime; values := coerce_date now <$> values (get_col df col) |} ∧
    len df' = len df ∧
    (∀ c, has_column df' c = has_column df c) ∧
    (∀ c, c ≠ col → get_col df' c = get_col df c).
Proof.
  intros Hc. unfold date_step. rewrite Hc.
  set (df1 := set_col df col (to_datetime (get_col df col))).
  assert (get_col df1 col = to_datetime (get_col df col)) as H1.
  { apply get_set_col_eq. by rewrite length_to_datetime, length_column. }
  assert (len df1 = len df) as Hlen1.
  { apply len_set_col. by rewrite length_to_datetime, length_column. }
  assert (∀ c, has_column df1 c = has_column df c) as Hcols1.
  { intros c. unfold df1. rewrite has_column_set_col.
    destruct (decide (col = c)) as [<-|Hne].
    - by rewrite Hc, bool_decide_eq_true_2.
    - by rewrite bool_decide_eq_false_2. }
  assert (∀ c, c ≠ col → get_col df1 c = get_col df c) as Hother1.
  { intros c Hne. apply get_set_col_ne; [done|].
    by rewrite length_to_datetime, length_column. }
  set (mask := later_mask (values (get_col df1 col)) now).
  set (df2 := loc_set df1 mask col VNull).
  assert (get_col df2 col
          = {| dtype := Datetime;
               values := coerce_date now <$> values (get_col df col) |}) as H2.
  { unfold df2, mask, later_mask. rewrite get_col_loc_set, H1. simpl.
    f_equal. by rewrite <- list_fmap_compose. }
  assert (length mask = len df1) as Hmask.
  { unfold mask, later_mask. by rewrite length_fmap, length_column. }
  assert (any mask = false → get_col df1 col = get_col df2 col) as Hnone.
  { intros Hany. rewrite H2, H1. unfold to_datetime. simpl. f_equal.
    unfold mask in Hany. rewrite H1 in Hany. by apply coerce_date_no_future. }
  match goal with |- context [(?m ;; _)] => destruct m as [[] lw|] eqn:Hw end;
    [|by case_match].
  destruct (any mask) eqn:Hany.
  - exists df2. eexists. split; [done|]. split; [done|].
    split; [unfold df2; by rewrite len_loc_set|].
    split; [done|].
    intros c Hne. unfold df2. by rewrite get_col_loc_set_ne, Hother1.
  - exists df1. eexists. split; [done|]. split; [by rewrite Hnone|].
    done.
Qed.

Lemma date_step_absent now col df :
  has_column df col = false → date_step now col df = Ok df [].
Proof. intros Hc. unfold date_step. by rewrite Hc. Qed.

Lemma numeric_step_present col df :
  has_column df col = true →
  ∃ df' log,
    numeric_step col df = Ok df' log ∧
    get_col df' col = to_numeric (get_col df col) ∧
    len df' = len df ∧
    (∀ c, has_column df' c = has_column df c) ∧
    (∀ c, c ≠ col → get_col df' c = get_col df c).
Proof.
  intros Hc. unfold numeric_step. rewrite Hc.
  set (df1 := set_col df col (to_numeric (get_col df col))).
  match goal with |- context [(?m ;; _)] => destruct m as [[] lw|] eqn:Hw end;
    [|by case_match].
  exists df1. eexists. split; [done|].
  split; [apply get_set_col_eq; by rewrite length_to_numeric, length_column|].
  split; [apply len_set_col; by rewrite length_to_numeric, length_column|].
  split.
  - intros c. unfold df1. rewrite has_column_set_col.
    destruct (decide (col = c)) as [<-|Hne].
    + by rewrite Hc, bool_decide_eq_true_2.
    + by rewrite bool_decide_eq_false_2.
  - intros c Hne. apply get_set_col_ne; [done|].
    by rewrite length_to_numeric, length_column.
Qed.

Lemma numeric_step_absent col df :
  has_column df col = false → numeric_step col df = Ok df [].
Proof. intros Hc. unfold numeric_step. by rewrite Hc. Qed.
Lemma coerce_date_idem now v :
  coerce_date now (coerce_date now v) = coerce_date now v.
Proof.
  unfold coerce_date.
  destruct (to_datetime_value v) as [|x|s|t] eqn:Hv; simpl; try done.
  - destruct v; simpl in Hv; try done;
      [destruct (datetime_of_number x0) | destruct (parse_datetime s)]; done.
  - destruct v; simpl in Hv; try done;
      [destruct (datetime_of_number x) | destruct (parse_datetime s0)]; done.
  - destruct (now <? t)%Z eqn:Hlt; simpl; [done|]. by rewrite Hlt.
Qed.

(** The date loop coerces the columns it lists and leaves the others. *)
Lemma date_loop now col date_columns df :
  has_column df col = true →
  ∃ df' log,
    for_each date_columns (date_step now) df = Ok df' log ∧
    has_column df' col = true ∧
    (col ∈ date_columns →
       get_col df' col
       = {| dtype := Datetime; values := coerce_date now <$> column df col |}) ∧
    (col ∉ date_columns → get_col df' col = get_col df col).
Proof.
  revert df. induction date_columns as [|c cols IH]; intros df Hc.
  - exists df, []. split; [done|]. split; [done|]. split; [|done].
    by intros ?%elem_of_nil.
  - assert (∃ df1 l1, date_step now c df = Ok df1 l1 ∧
              has_column df1 col = true ∧
              (c = col → get_col df1 col
                 = {| dtype := Datetime;
                      values := coerce_date now <$> column df col |}) ∧
              (c ≠ col → get_col df1 col = get_col df col))
      as (df1 & l1 & Hstep & Hc1 & Heq1 & Hne1).
    { destruct (has_column df c) eqn:Hcc.
      - destruct (date_step_present now c df Hcc)
          as (df1 & l1 & Hstep & Hcol & _ & Hcols & Hother).
        exists df1, l1. split; [done|]. split; [by rewrite Hcols|].
        split; [by intros -> | intros Hne; by apply Hother].
      - exists df, []. split; [by apply date_step_absent|]. split; [done|].
        split; [intros ->; congruence | done]. }
    destruct (IH df1 Hc1) as (df2 & l2 & Hloop & Hc2 & Hin2 & Hnotin2).
    exists df2, (l1 ++ l2). split.
    { rewrite for_each_cons, Hstep. simpl. by rewrite Hloop. }
    split; [done|]. split.
    + intros Hin. destruct (decide (col ∈ cols)) as [Hcols|Hcols].
      * rewrite (Hin2 Hcols). unfold column.
        destruct (decide (c = col)) as [Heq|Hne].
        -- rewrite (Heq1 Heq). simpl. f_equal. unfold column.
           rewrite <- list_fmap_compose. apply list_fmap_ext.
           intros _ v _. apply coerce_date_idem.
        -- by rewrite (Hne1 Hne).
      * rewrite (Hnotin2 Hcols). apply Heq1.
        apply elem_of_cons in Hin as [->|?]; done.
    + intros Hnotin. apply not_elem_of_cons in Hnotin as [Hne Hcols].
      rewrite (Hnotin2 Hcols). by apply Hne1.
Qed.

(** The numeric loop leaves the columns it does not list. *)
Lemma numeric_loop col numeric_columns df :
  col ∉ numeric_columns →
  ∃ df' log,
    for_each numeric_columns numeric_step df = Ok df' log ∧
    get_col df' col = get_col df col ∧
    has_column df' col = has_column df col ∧
    len df' = len df.
Proof.
  intros Hnotin.
  apply (for_each_invariant
           (λ df', get_col df' col = get_col df col ∧
                   has_column df' col = has_column df col ∧
                   len df' = len df)); [|done].
  intros c df1 Hc (Hcol & Hhas & Hlen).
  destruct (has_column df1 c) eqn:Hcc.
  - destruct (numeric_step_present c df1 Hcc)
      as (df2 & l2 & Hstep & _ & Hlen2 & Hcols & Hother).
    exists df2, l2. split; [done|].
    rewrite Hother, Hcols, Hlen2; [done|]. by intros ->.
  - exists df1, []. split; [by apply numeric_step_absent | done].
Qed.

End CoercionProperties.


(** Scenario D on the example: the date in the future and the unreadable
    date become null, the one equal to [now] stays, and both corrections
    are reported. *)
Example correct_datatypes_births :
  ∃ df',
    @_correct_datatypes no_readers 20000 births_example ["DOB"] []
      = Ok df' [WARNING (DatetimeConversionFailed "DOB" 1);
                WARNING (FutureDatesFound "DOB" 1)] ∧
    column df' "DOB" = [VTime 12000; VNull; VNull; VTime 20000].
Proof. eexists. split; vm_compute; reflexivity. Qed.

(** ** The mode of a column *)

Lemma value_eqb_refl a : value_eqb a a = true.
Proof.
  destruct a; simpl; try done.
  - apply Qeq_bool_refl.
  - apply String.eqb_refl.
  - apply Z.eqb_refl.
Qed.

Lemma value_eqb_trans a b c :
  value_eqb a b = true → value_eqb b c = true → value_eqb a c = true.
Proof.
  destruct a, b, c; simpl; try done.
  - apply Qeq_bool_trans.
  - intros ->%String.eqb_eq ->%String.eqb_eq. apply String.eqb_refl.
  - intros ->%Z.eqb_eq ->%Z.eqb_eq. apply Z.eqb_refl.
Qed.






Lemma elem_of_insert_value x y l : x ∈ insert_value y l ↔ x = y ∨ x ∈ l.
Proof.
  induction l as [|z l IH]; simpl.
  - rewrite list_elem_of_singleton, elem_of_nil. tauto.
  - destruct (value_leb y z).
    + by rewrite elem_of_cons.
    + rewrite !elem_of_cons, IH. tauto.
Qed.

Lemma elem_of_sort_values x l : x ∈ sort_values l ↔ x ∈ l.
Proof.
  induction l as [|y l IH]; simpl; [done|].
  by rewrite elem_of_insert_value, elem_of_cons, IH.
Qed.


Lemma count_eq_eqb a b l :
  value_eqb a b = true → count_eq a l = count_eq b l.
Proof.
  intros Hab. unfold count_eq. f_equal. apply list_filter_iff. intros x. split.
  - intros Hax. eapply value_eqb_trans; [|exact Hax]. by rewrite value_eqb_sym.
  - intros Hbx. by eapply value_eqb_trans.
Qed.

(** Every value has a representative among the distinct values. *)
Lemma uniques_from_covers seen vs v :
  v ∈ vs →
  existsb (value_eqb v) seen = true ∨
  ∃ k, k ∈ uniques_from seen vs ∧ value_eqb v k = true.
Proof.
  revert seen. induction vs as [|x vs IH]; intros seen; [by intros ?%elem_of_nil|].
  intros [->|Hin]%elem_of_cons; simpl.
  - destruct (existsb (value_eqb x) seen) eqn:Hx; [by left|].
    right. exists x. split; [left | apply value_eqb_refl].
  - destruct (existsb (value_eqb x) seen) eqn:Hx; [by apply IH|].
    destruct (IH (x :: seen) Hin) as [Hseen|(k & Hk & Hvk)].
    + simpl in Hseen. apply orb_prop in Hseen as [Hvx|Hseen]; [|by left].
      right. exists x. split; [left | done].
    + right. exists k. split; [by right | done].
Qed.

Lemma uniques_from_subset seen vs k : k ∈ uniques_from seen vs → k ∈ vs.
Proof.
  revert seen. induction vs as [|x vs IH]; intros seen; simpl; [done|].
  destruct (existsb (value_eqb x) seen).
  - intros Hk. right. by eapply IH.
  - intros [->|Hk]%elem_of_cons; [left | right; by eapply IH].
Qed.

Lemma foldr_max_ge (l : list nat) (n : nat) : n ∈ l → (n ≤ foldr Nat.max 0 l)%nat.
Proof.
  induction l as [|m l IH]; [by intros ?%elem_of_nil|].
  intros [->|Hin]%elem_of_cons; simpl; [lia|]. specialize (IH Hin). lia.
Qed.


(** The values [modes_unsorted] keeps are the non-null values of maximal
    count. *)
Lemma elem_of_modes_unsorted vs m :
  m ∈ modes_unsorted vs →
  m ∈ dropna_values vs ∧
  ∀ v, v ∈ dropna_values vs →
    (count_eq v (dropna_values vs) ≤ count_eq m (dropna_values vs))%nat.
Proof.
  unfold modes_unsorted. set (nn := dropna_values vs).
  intros [Hmax Hkey]%list_elem_of_filter.
  split; [by eapply uniques_from_subset|].
  intros v Hv. rewrite Hmax.
  destruct (uniques_from_covers [] nn v Hv) as [?|(k & Hk & Hvk)]; [done|].
  rewrite (count_eq_eqb v k) by done.
  apply foldr_max_ge, list_elem_of_fmap. by exists k.
Qed.




Lemma elem_of_dropna_values v vs :
  v ∈ dropna_values vs ↔ isnull v = false ∧ v ∈ vs.
Proof. unfold dropna_values. by rewrite list_elem_of_filter. Qed.


(** ** Filling the missing values *)

Lemma handle_missing_values_steps df mode_cols unknown_cols drop_cols :
  _handle_missing_values df mode_cols unknown_cols drop_cols =
    (df ← for_each mode_cols mode_step df;
     df ← for_each unknown_cols unknown_step df;
     df ← (if truthy drop_cols then
             let original_rows := len df in
             df ← dropna drop_cols df;
             info (DroppedNaRows (original_rows - len df) drop_cols);;
             mret df
           else mret df);
     mret df).
Proof. by destruct mode_cols, unknown_cols. Qed.

Lemma length_fillna v s : length (values (fillna v s)) = length (values s).
Proof. unfold fillna. simpl. by rewrite length_fmap. Qed.


Lemma fill_nulls_isnull v (vs : list Value) x :
  isnull v = false → x ∈ fill_nulls v vs → isnull x = false.
Proof.
  intros Hv (y & -> & _)%list_elem_of_fmap. by destruct (isnull y) eqn:Hy.
Qed.

Lemma elem_of_mode vs m : m ∈ mode vs → m ∈ dropna_values vs.
Proof.
  unfold mode. destruct (modes_unsorted vs) as [|m0 ms] eqn:Hms;
    [by intros ?%elem_of_nil|].
  intros Hm.
  assert (m ∈ modes_unsorted vs) as Hin.
  { rewrite Hms. destruct (forallb (same_kind m0) (m0 :: ms)); [|done].
    by apply elem_of_sort_values. }
  by apply elem_of_modes_unsorted in Hin as [? _].
Qed.

Lemma mode_fill_values_isnull vs x : x ∈ mode_fill_values vs → isnull x = false.
Proof.
  unfold mode_fill_values. destruct (mode vs) as [|m rest] eqn:Hmode.
  - by apply fill_nulls_isnull.
  - apply fill_nulls_isnull.
    assert (m ∈ dropna_values vs) as Hm
      by (apply elem_of_mode; rewrite Hmode; left).
    by apply elem_of_dropna_values in Hm as [? _].
Qed.



Lemma has_column_set_col_present df col s c :
  has_column df col = true → has_column (set_col df col s) c = has_column df c.
Proof.
  intros Hc. rewrite has_column_set_col.
  destruct (decide (col = c)) as [<-|Hne].
  - by rewrite Hc, bool_decide_eq_true_2.
  - by rewrite bool_decide_eq_false_2.
Qed.

Lemma mode_step_present col df :
  has_column df col = true →
  ∃ df' log,
    mode_step col df = Ok df' log ∧
    column df' col = mode_fill_values (column df col) ∧
    (mode (column df col) = [] → log = [WARNING (ModeEmpty col)]) ∧
    len df' = len df ∧
    (∀ c, has_column df' c = has_column df c) ∧
    (∀ c, c ≠ col → get_col df' c = get_col df c).
Proof.
  intros Hc. unfold mode_step, mode_fill_values, column. rewrite Hc.
  destruct (mode (values (get_col df col))) as [|m rest].
  - exists (set_col df col (fillna (VStr "unknown") (get_col df col))),
      [WARNING (ModeEmpty col)].
    split; [done|].
    split; [by rewrite get_set_col_eq by by rewrite length_fillna, length_column|].
    split; [done|].
    split; [apply len_set_col; by rewrite length_fillna, length_column|].
    split; [intros c; by apply has_column_set_col_present|].
    intros c Hne. apply get_set_col_ne; [done|].
    by rewrite length_fillna, length_column.
  - exists (set_col df col (fillna m (get_col df col))), [].
    split; [done|].
    split; [by rewrite get_set_col_eq by by rewrite length_fillna, length_column|].
    split; [done|].
    split; [apply len_set_col; by rewrite length_fillna, length_column|].
    split; [intros c; by apply has_column_set_col_present|].
    intros c Hne. apply get_set_col_ne; [done|].
    by rewrite length_fillna, length_column.
Qed.

Lemma unknown_step_present col df :
  has_column df col = true →
  ∃ df',
    unknown_step col df = Ok df' [] ∧
    column df' col = fill_nulls (VStr "Unknown") (column df col) ∧
    len df' = len df ∧
    (∀ c, has_column df' c = has_column df c) ∧
    (∀ c, c ≠ col → get_col df' c = get_col df c).
Proof.
  intros Hc. unfold unknown_step, column. rewrite Hc.
  exists (set_col df col (fillna (VStr "Unknown") (get_col df col))).
  split; [done|].
  split; [by rewrite get_set_col_eq by by rewrite length_fillna, length_column|].
  split; [apply len_set_col; by rewrite length_fillna, length_column|].
  split; [intros c; by apply has_column_set_col_present|].
  intros c Hne. apply get_set_col_ne; [done|].
  by rewrite length_fillna, length_column.
Qed.







(** ** A column without a mode *)




(** ** Text normalisation *)

Lemma standardize_text_columns_steps df columns :
  _standardize_text_columns df columns = for_each columns text_step df.
Proof. done. Qed.







Lemma length_title_from b s : String.length (title_from b s) = String.length s.
Proof.
  revert b. induction s as [|a s IH]; intros b; simpl; [done|].
  destruct (is_cased a); simpl; by rewrite IH.
Qed.

Lemma length_str_map f s : length (values (str_map f s)) = length (values s).
Proof. unfold str_map. simpl. by rewrite length_fmap. Qed.

(** One pass of the loop: other columns, the set of columns and the
    number of rows stay, nothing is logged. *)
Lemma text_step_frame c df :
  ∃ df',
    text_step c df = Ok df' [] ∧
    (∀ c', c' ≠ c → get_col df' c' = get_col df c') ∧
    (∀ c', has_column df' c' = has_column df c') ∧
    (has_column df c = true → is_string_dtype (get_col df c) = true →
       get_col df' c = str_map title (str_map strip (get_col df c))).
Proof.
  unfold text_step.
  destruct (has_column df c) eqn:Hc; [|by exists df].
  destruct (is_string_dtype (get_col df c)) eqn:Hs; [|by exists df].
  simpl.
  set (df1 := set_col df c (str_map strip (get_col df c))).
  assert (get_col df1 c = str_map strip (get_col df c)) as H1
    by (apply get_set_col_eq; by rewrite length_str_map, length_column).
  assert (len df1 = len df) as Hlen1
    by (apply len_set_col; by rewrite length_str_map, length_column).
  assert (has_column df1 c = true) as Hc1
    by (unfold df1; by rewrite has_column_set_col_present).
  exists (set_col df1 c (str_map title (get_col df1 c))).
  split; [done|]. split; [|split].
  - intros c' Hne. rewrite get_set_col_ne;
      [|done|by rewrite length_str_map, length_column].
    apply get_set_col_ne; [done|]. by rewrite length_str_map, length_column.
  - intros c'. rewrite has_column_set_col_present by done.
    unfold df1. by rewrite has_column_set_col_present.
  - intros _ _. rewrite get_set_col_eq by by rewrite length_str_map, length_column.
    by rewrite H1.
Qed.






(** ** Columns that are absent *)

Lemma handle_duplicates_absent df subset_cols c :
  c ∈ subset_cols → has_column df c = false →
  _handle_duplicates df subset_cols = Ok df [].
Proof.
  intros Hin Hc. unfold _handle_duplicates.
  assert (forallb (has_column df) subset_cols = false) as ->;
    [|by rewrite andb_false_r].
  apply not_true_is_false. intros Hall.
  eapply forallb_forall in Hall; [|by apply list_elem_of_In]. congruence.
Qed.

Lemma mode_step_absent col df :
  has_column df col = false → mode_step col df = Ok df [].
Proof. intros Hc. unfold mode_step. by rewrite Hc. Qed.

Lemma unknown_step_absent col df :
  has_column df col = false → unknown_step col df = Ok df [].
Proof. intros Hc. unfold unknown_step. by rewrite Hc. Qed.

Lemma text_step_absent col df :
  has_column df col = false → text_step col df = Ok df [].
Proof. intros Hc. unfold text_step. by rewrite Hc. Qed.

(** The drop-if-null branch has no such guard. *)
Lemma dropna_absent df subset c :
  c ∈ subset → has_column df c = false →
  ∃ labels, dropna subset df = Raise (KeyError labels) ∧ c ∈ labels.
Proof.
  intros Hin Hc. unfold dropna.
  assert (c ∈ filter (λ c, has_column df c = false) subset) as Hmiss
    by by apply list_elem_of_filter.
  destruct (filter (λ c, has_column df c = false) subset) as [|c0 rest];
    [by apply elem_of_nil in Hmiss|].
  by exists (c0 :: rest).
Qed.

(** C9 fails for drop-if-null: [_handle_missing_values] raises [KeyError]
    when a drop-if-null column is absent, where its two fill branches skip
    an absent column; the loyalty pipeline raises on the frame the
    generator of this repository produces, which has no [customer_id]. *)
Theorem drop_if_null_absent_column_raises :
  _handle_missing_values orders_example [] [] ["customer_id"]
    = Raise (KeyError ["customer_id"]) ∧
  _handle_missing_values orders_example ["customer_id"] ["customer_id"] []
    = Ok orders_example [] ∧
  @clean_loyalty_data no_readers 0 generated_loyalty_example
    = Raise (KeyError ["customer_id"]).
Proof. repeat split; vm_compute; reflexivity. Qed.

(** ** Steps that only remove rows and rewrite their own column *)

Lemma quiet_app l1 l2 : quiet l1 → quiet l2 → quiet (l1 ++ l2).
Proof.
  unfold quiet, duplicates_removed, outliers_handled.
  intros [H1 H1'] [H2 H2']. rewrite !sum_list_with_app. lia.
Qed.

Lemma evolves_refl touched df : evolves touched df df.
Proof. done. Qed.

Lemma evolves_trans touched df df1 df2 :
  evolves touched df df1 → evolves touched df1 df2 → evolves touched df df2.
Proof.
  intros (Hhas1 & Hcol1 & Hkey1) (Hhas2 & Hcol2 & Hkey2). split; [|split].
  - intros c. by rewrite Hhas2, Hhas1.
  - intros c Hc. destruct (Hcol1 c Hc) as [Hd1 Hv1].
    destruct (Hcol2 c Hc) as [Hd2 Hv2]. split; [by rewrite Hd2|].
    intros v Hv. by apply Hv1, Hv2.
  - intros subset Hsub. etrans; [by apply Hkey2 | by apply Hkey1].
Qed.

Lemma evolves_weaken touched touched' df df' :
  (∀ c, c ∈ touched → c ∈ touched') →
  evolves touched df df' → evolves touched' df df'.
Proof.
  intros Hsub (Hhas & Hcol & Hkey). split; [done|]. split.
  - intros c Hc. apply Hcol. intros Hin. by apply Hc, Hsub.
  - intros subset Hs. apply Hkey. intros c Hc Hin. by eapply Hs, Hsub.
Qed.

Lemma row_key_insert_ne subset c v (r : gmap string Value) :
  c ∉ subset → row_key subset (<[c := v]> r) = row_key subset r.
Proof.
  intros Hc. unfold row_key. apply list_fmap_ext. intros i c' Hi.
  apply lookup_total_insert_ne. intros ->.
  apply Hc. by eapply list_elem_of_lookup_2.
Qed.

Lemma keys_zip_insert subset c (rs : list (gmap string Value)) vs :
  c ∉ subset → length vs = length rs →
  row_key subset
    <$> zip_with (λ (r : gmap string Value) v, <[c := v]> r) rs vs
  = row_key subset <$> rs.
Proof.
  intros Hc. revert vs.
  induction rs as [|r rs IH]; intros [|v vs] Hlen; simpl in *; try done.
  rewrite row_key_insert_ne by done. f_equal. apply IH. lia.
Qed.

Lemma keys_zip_mask subset c v (rs : list (gmap string Value)) mask :
  c ∉ subset → length mask = length rs →
  row_key subset
    <$> zip_with (λ (b : bool) (r : gmap string Value),
                    if b then <[c := v]> r else r) mask rs
  = row_key subset <$> rs.
Proof.
  intros Hc. revert mask.
  induction rs as [|r rs IH]; intros [|b mask] Hlen; simpl in *; try done.
  rewrite IH by lia. f_equal. destruct b; [|done]. by apply row_key_insert_ne.
Qed.

Lemma bool_index_sublist {A : Type} mask (l : list A) :
  bool_index mask l `sublist_of` l.
Proof.
  revert l. induction mask as [|b mask IH]; intros [|x l]; simpl;
    try apply sublist_nil_l.
  destruct b; [by apply sublist_skip | by apply sublist_cons].
Qed.

Lemma elem_of_bool_index {A : Type} mask (l : list A) x :
  x ∈ bool_index mask l → x ∈ l.
Proof. intros Hx. eapply elem_of_sublist; [done | apply bool_index_sublist]. Qed.

Lemma evolves_set_col df c s :
  has_column df c = true → length (values s) = len df →
  evolves [c] df (set_col df c s).
Proof.
  intros Hc Hlen. split; [|split].
  - intros c'. by apply has_column_set_col_present.
  - intros c' Hne%not_elem_of_cons. destruct Hne as [Hne _].
    unfold column. by rewrite get_set_col_ne.
  - intros subset Hsub. unfold set_col. simpl.
    rewrite keys_zip_insert; [done| |done].
    intros Hin. apply (Hsub c Hin). left.
Qed.

Lemma evolves_loc_set df mask c v :
  length mask = len df → evolves [c] df (loc_set df mask c v).
Proof.
  intros Hlen. split; [done|]. split.
  - intros c' Hne%not_elem_of_cons. destruct Hne as [Hne _].
    unfold column. by rewrite get_col_loc_set_ne.
  - intros subset Hsub. unfold loc_set. simpl.
    rewrite keys_zip_mask; [done| |done].
    intros Hin. apply (Hsub c Hin). left.
Qed.

Lemma evolves_select_rows df mask : evolves [] df (select_rows mask df).
Proof.
  split; [done|]. split.
  - intros c _. unfold column. rewrite get_col_select_rows. simpl.
    split; [done|]. apply elem_of_bool_index.
  - intros subset _. unfold select_rows. simpl.
    rewrite <- bool_index_fmap. apply bool_index_sublist.
Qed.

Lemma bool_index_const_true {A B : Type} (f : B → bool) (l : list A) (l' : list B) :
  (∀ x, f x = true) → length l' = length l → bool_index (f <$> l') l = l.
Proof.
  intros Hf. revert l'.
  induction l as [|x l IH]; intros [|y l'] Hlen; simpl in *; try done.
  rewrite Hf. f_equal. apply IH. lia.
Qed.

Lemma select_rows_const_true {B : Type} (f : B → bool) (l' : list B) df :
  (∀ x, f x = true) → length l' = len df → select_rows (f <$> l') df = df.
Proof.
  intros Hf Hlen. destruct df as [cols rs]. unfold select_rows. simpl.
  by rewrite bool_index_const_true.
Qed.

Lemma handle_duplicates_evolves df subset_cols :
  subset_cols ≠ [] →
  ∃ df' log,
    _handle_duplicates df subset_cols = Ok df' log ∧
    evolves [] df df' ∧
    ((∀ c, c ∈ subset_cols → has_column df c = true) →
     fresh_keys [] (row_key subset_cols <$> rows df')).
Proof.
  intros Hne.
  destruct (forallb (has_column df) subset_cols) eqn:Hall.
  - assert (∀ c, c ∈ subset_cols → has_column df c = true) as Hpresent.
    { intros c Hc. eapply forallb_forall in Hall; [done|]. by apply list_elem_of_In. }
    eexists _, _. split; [by apply handle_duplicates_present|].
    split; [apply evolves_select_rows|]. intros _. apply kept_rows_fresh.
  - exists df, []. split.
    + unfold _handle_duplicates. by rewrite Hall, andb_false_r.
    + split; [done|]. intros Hpresent.
      assert (forallb (has_column df) subset_cols = true); [|congruence].
      apply forallb_forall. intros c Hc. by apply Hpresent, list_elem_of_In.
Qed.

(** On rows whose keys are already distinct nothing is removed. *)
Lemma handle_duplicates_fresh df subset_cols :
  ((∀ c, c ∈ subset_cols → has_column df c = true) →
   fresh_keys [] (row_key subset_cols <$> rows df)) →
  ∃ log, _handle_duplicates df subset_cols = Ok df log ∧ quiet log.
Proof.
  intros Hfresh. unfold _handle_duplicates.
  destruct (truthy subset_cols && forallb (has_column df) subset_cols) eqn:Hguard;
    [|by exists []].
  apply andb_prop in Hguard as [_ Hall].
  assert (drop_duplicates subset_cols df = df) as ->.
  { unfold drop_duplicates, duplicated.
    rewrite duplicated_from_fresh.
    - rewrite <- !list_fmap_compose. by apply select_rows_const_true.
    - apply Hfresh. intros c Hc.
      eapply forallb_forall in Hall; [done|]. by apply list_elem_of_In. }
  eexists. split; [done|]. rewrite Nat.sub_diag. done.
Qed.

Lemma dropna_evolves df subset df' log :
  dropna subset df = Ok df' log →
  log = [] ∧ evolves [] df df' ∧ ∀ c, c ∈ subset → has_column df c = true.
Proof.
  unfold dropna.
  destruct (filter (λ c, has_column df c = false) subset) as [|c0 rest] eqn:Hmiss;
    [|done].
  intros [= <- <-]. split; [done|]. split; [apply evolves_select_rows|].
  intros c Hc. destruct (has_column df c) eqn:Hhas; [done|].
  assert (c ∈ filter (λ c, has_column df c = false) subset) as Hin
    by by apply list_elem_of_filter.
  rewrite Hmiss in Hin. by apply elem_of_nil in Hin.
Qed.

Lemma dropna_present df subset :
  (∀ c, c ∈ subset → has_column df c = true) →
  ∃ df', dropna subset df = Ok df' [] ∧ evolves [] df df'.
Proof.
  intros Hpresent. unfold dropna.
  assert (filter (λ c, has_column df c = false) subset = []) as ->.
  { induction subset as [|c subset IH]; [done|].
    rewrite filter_cons_False by (rewrite Hpresent by left; done).
    apply IH. intros c' Hc'. apply Hpresent. by right. }
  eexists. split; [done|]. apply evolves_select_rows.
Qed.

Lemma mask_sum_none (vs : list Value) (p : Value → bool) :
  (∀ v, v ∈ vs → p v = false) → mask_sum (p <$> vs) = 0.
Proof.
  unfold mask_sum. induction vs as [|v vs IH]; intros Hall; [done|].
  rewrite fmap_cons, filter_cons_False by (rewrite Hall by left; done).
  apply IH. intros v' Hv'. apply Hall. by right.
Qed.

(** The lower-bound clip: the column ends above the bound, and a column
    that is already above it is not counted. *)
Lemma handle_outliers_lower_cap df col lb :
  ∃ df' log,
    _handle_outliers df col (Some lb) None "cap" = Ok df' log ∧
    evolves [col] df df' ∧
    (has_column df col = true → dtype (get_col df col) = Numeric →
       dtype (get_col df' col) = Numeric ∧
       ∀ x, VNum x ∈ column df' col → (lb <= x)%Q) ∧
    ((has_column df col = true → dtype (get_col df col) = Numeric →
        ∀ x, VNum x ∈ column df col → (lb <= x)%Q) → quiet log).
Proof.
  destruct (has_column df col && is_numeric_dtype (get_col df col)) eqn:Hguard.
  - apply andb_prop in Hguard as [Hc Hd]. apply bool_decide_eq_true in Hd.
    rewrite (handle_outliers_present _ _ _ _ _ Hc Hd). cbn zeta.
    change (apply_strategy "cap" df (lt_mask (column df col) lb) col (VNum lb))
      with (loc_set df (lt_mask (column df col) lb) col (VNum lb)).
    eexists _, _. split; [done|]. split; [|split].
    + apply evolves_loc_set. unfold lt_mask, column.
      by rewrite length_fmap, length_column.
    + intros _ _. unfold column, lt_mask. rewrite get_col_loc_set. simpl.
      split; [done|]. intros x Hx.
      eapply (cap_below_ge lb (values (get_col df col))). exact Hx.
    + intros Hge. unfold invalid_low_count, lt_mask.
      rewrite mask_sum_none; [done|].
      intros [|x| |] Hv; try done. simpl. apply Qltb_ge. by apply Hge.
  - exists df, []. split; [unfold _handle_outliers; by rewrite Hguard|].
    split; [done|]. split; [|done].
    intros Hc Hd. unfold is_numeric_dtype in Hguard.
    by rewrite Hc, Hd in Hguard.
Qed.

Lemma standardize_text_evolves df col :
  ∃ df', _standardize_text_columns df [col] = Ok df' [] ∧ evolves [col] df df'.
Proof.
  rewrite standardize_text_columns_steps. unfold for_each, text_step.
  destruct (has_column df col && is_string_dtype (get_col df col)) eqn:Hguard.
  - apply andb_prop in Hguard as [Hc _]. simpl. eexists. split; [done|].
    eapply evolves_trans;
      apply evolves_set_col;
      rewrite ?has_column_set_col_present by done; try done;
      rewrite length_str_map, ?length_column; try done.
  - by exists df.
Qed.

Lemma handle_missing_values_unknown_evolves df col :
  ∃ df',
    _handle_missing_values df [] [col] [] = Ok df' [] ∧ evolves [col] df df'.
Proof.
  rewrite handle_missing_values_steps. simpl. unfold unknown_step.
  destruct (has_column df col) eqn:Hc.
  - eexists. split; [done|]. apply evolves_set_col; [done|].
    by rewrite length_fillna, length_column.
  - by exists df.
Qed.

Section PipelineProperties.
Context `{Readers}.

Lemma correct_datatypes_numeric_evolves now df col :
  ∃ df' log,
    _correct_datatypes now df [] [col] = Ok df' log ∧
    quiet log ∧
    evolves [col] df df' ∧
    (has_column df col = true →
       dtype (get_col df' col) = Numeric ∧
       (dtype (get_col df col) = Numeric → column df' col = column df col)).
Proof.
  rewrite correct_datatypes_steps.
  cbn [for_each mbind result_bind mret result_ret]. unfold numeric_step.
  destruct (has_column df col) eqn:Hc; [|by exists df, []].
  set (s := to_numeric (get_col df col)).
  assert (length (values s) = len df) as Hlen
    by by (unfold s; rewrite length_to_numeric, length_column).
  assert (get_col (set_col df col s) col = s) as Hcol by by apply get_set_col_eq.
  assert (dtype s = Numeric ∧
          (dtype (get_col df col) = Numeric → values s = values (get_col df col)))
    as [Hd Hv].
  { unfold s, to_numeric. simpl. split; [done|]. by intros ->. }
  destruct (bool_decide _);
    (eexists _, _; split; [reflexivity|]; split; [done|];
     split; [by apply evolves_set_col|]; intros _; unfold column; rewrite Hcol;
     done).
Qed.
Lemma not_elem_of_2 (a b c : string) : c ≠ a → c ≠ b → c ∉ [a; b].
Proof. intros Ha Hb [?|[?|?%elem_of_nil]%elem_of_cons]%elem_of_cons; done. Qed.

(** The first run leaves a frame with distinct keys and no negative
    points. *)
Lemma clean_loyalty_data_cleaned now df df1 log1 :
  clean_loyalty_data now df = Ok df1 log1 → loyalty_cleaned df1.
Proof.
  unfold clean_loyalty_data. intros Hrun.
  destruct (handle_duplicates_evolves df ["loyalty_member_id"; "customer_id"])
    as (dfa & la & Ha & Eva & Hfresh); [done|].
  rewrite Ha in Hrun. cbn [mbind result_bind] in Hrun.
  destruct (correct_datatypes_numeric_evolves now dfa "total_loyalty_points")
    as (dfb & lb & Hb & _ & Evb & Hnum).
  rewrite Hb in Hrun. cbn [mbind result_bind] in Hrun.
  destruct (handle_missing_values_unknown_evolves dfb "assigned_discount_group(s)")
    as (dfc & Hc & Evc).
  rewrite Hc in Hrun. cbn [mbind result_bind] in Hrun.
  destruct (dropna ["customer_id"] dfc) as [dfd ld|e] eqn:Hd; [|done].
  cbn [mbind result_bind] in Hrun.
  apply dropna_evolves in Hd as (-> & Evd & Hcid).
  destruct (handle_outliers_lower_cap dfd "total_loyalty_points" 0)
    as (dfe & le & He & Eve & Hclip & _).
  rewrite He in Hrun. cbn [mbind result_bind] in Hrun.
  destruct (standardize_text_evolves dfe "assigned_discount_group(s)")
    as (dff & Hf & Evf).
  rewrite Hf in Hrun. injection Hrun as <- _.
  set (touched := ["total_loyalty_points"; "assigned_discount_group(s)"]).
  assert (evolves touched dfa dfb) as Evb'
    by (eapply evolves_weaken; [|exact Evb];
        intros c ->%list_elem_of_singleton; left).
  assert (evolves touched dfb dfc) as Evc'
    by (eapply evolves_weaken; [|exact Evc];
        intros c ->%list_elem_of_singleton; right; left).
  assert (evolves touched dfc dfd) as Evd'
    by (eapply evolves_weaken; [|exact Evd]; by intros c ?%elem_of_nil).
  assert (evolves touched dfd dfe) as Eve'
    by (eapply evolves_weaken; [|exact Eve];
        intros c ->%list_elem_of_singleton; left).
  assert (evolves touched dfe dff) as Evf'
    by (eapply evolves_weaken; [|exact Evf];
        intros c ->%list_elem_of_singleton; right; left).
  assert (evolves touched dfa dff) as Evaf
    by (repeat (eapply evolves_trans; [eassumption|]); done).
  assert (evolves touched dfc dff) as Evcf
    by (repeat (eapply evolves_trans; [eassumption|]); done).
  split; [|split].
  - destruct Evcf as (Hhas & _). rewrite Hhas. apply Hcid. left.
  - intros Hpresent. destruct Evaf as (Hhas & _ & Hkeys).
    eapply fresh_keys_sublist.
    + apply Hkeys. intros c [->|[->|?%elem_of_nil]%elem_of_cons]%elem_of_cons;
        [| |done]; by apply not_elem_of_2.
    + apply Hfresh. intros c Hc'. destruct Eva as (Hhas0 & _).
      rewrite <- Hhas0, <- Hhas. by apply Hpresent.
  - intros Hpoints.
    assert ("total_loyalty_points" ∉ ["assigned_discount_group(s)"]) as Hne
      by (intros ?%list_elem_of_singleton; done).
    destruct Evf as (Hhasf & Hcolf & _). destruct (Hcolf _ Hne) as [Hdf Hvf].
    destruct Eve as (Hhase & _). destruct Evd as (Hhasd & Hcold & _).
    destruct (Hcold "total_loyalty_points") as [Hdd _]; [apply not_elem_of_nil|].
    destruct Evc as (Hhasc & Hcolc & _). destruct (Hcolc _ Hne) as [Hdc _].
    destruct Evb as (Hhasb & _).
    rewrite Hhasf, Hhase in Hpoints.
    destruct Hclip as [Hde Hge]; [done| |].
    { rewrite Hdd, Hdc. apply Hnum. by rewrite <- Hhasb, <- Hhasc, <- Hhasd. }
    split; [by rewrite Hdf|]. intros x Hx. by apply Hge, Hvf.
Qed.

(** On such a frame a run removes nothing and clips nothing. *)
Lemma clean_loyalty_data_quiet now df :
  loyalty_cleaned df →
  ∃ df' log, clean_loyalty_data now df = Ok df' log ∧ quiet log.
Proof.
  intros (Hcid & Hfresh & Hpoints). unfold clean_loyalty_data.
  destruct (handle_duplicates_fresh df ["loyalty_member_id"; "customer_id"] Hfresh)
    as (la & Ha & Hqa).
  rewrite Ha. cbn [mbind result_bind].
  destruct (correct_datatypes_numeric_evolves now df "total_loyalty_points")
    as (dfb & lb & Hb & Hqb & Evb & Hnum).
  rewrite Hb. cbn [mbind result_bind].
  destruct (handle_missing_values_unknown_evolves dfb "assigned_discount_group(s)")
    as (dfc & Hc & Evc).
  rewrite Hc. cbn [mbind result_bind].
  assert ("total_loyalty_points" ∉ ["assigned_discount_group(s)"]) as Hne
    by (intros ?%list_elem_of_singleton; done).
  destruct Evb as (Hhasb & _). destruct Evc as (Hhasc & Hcolc & _).
  destruct (Hcolc _ Hne) as [Hdc Hvc].
  destruct (dropna_present dfc ["customer_id"]) as (dfd & Hd & Evd).
  { intros c ->%list_elem_of_singleton. by rewrite Hhasc, Hhasb. }
  rewrite Hd. cbn [mbind result_bind].
  destruct Evd as (Hhasd & Hcold & _).
  destruct (Hcold "total_loyalty_points") as [Hdd Hvd]; [apply not_elem_of_nil|].
  destruct (handle_outliers_lower_cap dfd "total_loyalty_points" 0)
    as (dfe & le & He & _ & _ & Hqe).
  rewrite He. cbn [mbind result_bind].
  destruct (standardize_text_evolves dfe "assigned_discount_group(s)")
    as (dff & Hf & _).
  rewrite Hf. eexists _, _. split; [reflexivity|].
  repeat apply quiet_app; try done.
  apply Hqe. intros Hhas _ x Hx.
  rewrite Hhasd, Hhasc, Hhasb in Hhas.
  destruct (Hpoints Hhas) as [Hnumeric Hge].
  destruct (Hnum Hhas) as [_ Hsame].
  apply Hge. rewrite <- (Hsame Hnumeric). by apply Hvc, Hvd.
Qed.

(** C1 (as amended): the loyalty pipeline, run again on the frame it
    returned, returns, removes no row as a duplicate and counts no cell as
    an outlier. *)
Theorem clean_loyalty_data_twice now now' df df1 log1 :
  clean_loyalty_data now df = Ok df1 log1 →
  ∃ df2 log2,
    clean_loyalty_data now' df1 = Ok df2 log2 ∧
    duplicates_removed log2 = 0 ∧
    outliers_handled log2 = 0.
Proof.
  intros Hrun%clean_loyalty_data_cleaned.
  destruct (clean_loyalty_data_quiet now' df1 Hrun) as (df2 & log2 & Hrun2 & Hq).
  by exists df2, log2.
Qed.
End PipelineProperties.

Lemma clean_loyalty_data_twice_witness :
  ∃ df1 log1,
    @clean_loyalty_data no_readers 0 loyalty_example = Ok df1 log1 ∧
    ∃ df2 log2,
      @clean_loyalty_data no_readers 0 df1 = Ok df2 log2 ∧
      duplicates_removed log2 = 0 ∧
      outliers_handled log2 = 0.
Proof.
  let r := eval vm_compute in (@clean_loyalty_data no_readers 0 loyalty_example) in
  match r with
  | Ok ?d ?l =>
      assert (@clean_loyalty_data no_readers 0 loyalty_example = Ok d l) as Hrun
        by (vm_compute; reflexivity);
      exists d, l; split; [exact Hrun|];
      exact (@clean_loyalty_data_twice no_readers 0 0 loyalty_example d l Hrun)
  end.
Defined.

(** C1, as it is worded, fails for the other two pipelines.  Cleaning two
    orders of 1 and 2 clips the second to the 0.99 quantile, 1.99; cleaning
    the result clips it again, to 1.9801.  Cleaning a customer entered
    once without e-mail and once with the e-mail "Unknown" fills the
    first, so that the second run finds a duplicate. *)
Lemma cleaning_twice_counterexample :
  (∃ df1 log1 df2 log2,
     @clean_transactions_data no_readers 0 two_orders_example = Ok df1 log1 ∧
     @clean_transactions_data no_readers 0 df1 = Ok df2 log2 ∧
     column df1 "order_total" = [VNum 1; VNum (199 # 100)] ∧
     column df2 "order_total" = [VNum 1; VNum (19801 # 10000)] ∧
     outliers_handled log2 = 1) ∧
  (∃ df1 log1 df2 log2,
     @clean_customer_data no_readers 0 unknown_emails_example = Ok df1 log1 ∧
     @clean_customer_data no_readers 0 df1 = Ok df2 log2 ∧
     duplicates_removed log1 = 0 ∧
     duplicates_removed log2 = 1).
Proof.
  split.
  - eexists _, _, _, _. split; [vm_compute; reflexivity|].
    split; [vm_compute; reflexivity|]. repeat split; vm_compute; reflexivity.
  - eexists _, _, _, _. split; [vm_compute; reflexivity|].
    split; [vm_compute; reflexivity|]. split; vm_compute; reflexivity.
Qed.

(** ** The scenarios on the pipelines *)

(** Scenario B: the order total of -100 comes out as 0.1; the row without
    order total is dropped and the largest total is clipped to the 0.99
    quantile of what is left. *)
Example clean_transactions_orders :
  ∃ df' log,
    @clean_transactions_data no_readers 0 orders_example = Ok df' log ∧
    column df' "order_total" = [VNum (1 # 10); VNum 5; VNum (174 # 25)] ∧
    log = [INFO (DroppedNaRows 1 ["order_total"; "quantity"]);
           INFO (HandledOutliers "order_total" 2 "cap");
           INFO (HandledOutliers "quantity" 1 "cap");
           INFO TransactionsCleaned].
Proof. eexists _, _. repeat split; vm_compute; reflexivity. Qed.

(** Scenario C and E on the loyalty frame: -10 points come out as 0, the
    missing discount group as "Unknown", the others title-cased. *)
Example clean_loyalty_points :
  ∃ df' log,
    @clean_loyalty_data no_readers 0 loyalty_example = Ok df' log ∧
    column df' "total_loyalty_points" = [VNull; VNum 0; VNum 120] ∧
    column df' "assigned_discount_group(s)"
      = [VStr "Gold Member"; VStr "Unknown"; VStr "Silver Member"].
Proof. eexists _, _. repeat split; vm_compute; reflexivity. Qed.

(** ** Steps that rewrite cells and keep the rows *)

Lemma rewrites_refl touched df : rewrites touched df df.
Proof. done. Qed.

Lemma rewrites_trans touched df df1 df2 :
  rewrites touched df df1 → rewrites touched df1 df2 → rewrites touched df df2.
Proof.
  intros (Hlen1 & Hhas1 & Hcol1 & Hkey1) (Hlen2 & Hhas2 & Hcol2 & Hkey2).
  split; [congruence|]. split; [|split].
  - intros c. by rewrite Hhas2, Hhas1.
  - intros c Hc. by rewrite Hcol2, Hcol1.
  - intros subset Hsub. by rewrite Hkey2, Hkey1.
Qed.

Lemma rewrites_weaken touched touched' df df' :
  (∀ c, c ∈ touched → c ∈ touched') →
  rewrites touched df df' → rewrites touched' df df'.
Proof.
  intros Hsub (Hlen & Hhas & Hcol & Hkey). split; [done|]. split; [done|]. split.
  - intros c Hc. apply Hcol. intros Hin. by apply Hc, Hsub.
  - intros subset Hs. apply Hkey. intros c Hc Hin. by eapply Hs, Hsub.
Qed.

Lemma rewrites_evolves touched df df' :
  rewrites touched df df' → evolves touched df df'.
Proof.
  intros (Hlen & Hhas & Hcol & Hkey). split; [done|]. split.
  - intros c Hc. unfold column. by rewrite (Hcol c Hc).
  - intros subset Hsub. by rewrite (Hkey subset Hsub).
Qed.

Lemma rewrites_set_col df c s :
  has_column df c = true → length (values s) = len df →
  rewrites [c] df (set_col df c s).
Proof.
  intros Hc Hlen. split; [by apply len_set_col|]. split; [|split].
  - intros c'. by apply has_column_set_col_present.
  - intros c' Hne%not_elem_of_cons. destruct Hne as [Hne _].
    by rewrite get_set_col_ne.
  - intros subset Hsub. unfold set_col. simpl.
    rewrite keys_zip_insert; [done| |done].
    intros Hin. apply (Hsub c Hin). left.
Qed.

Lemma rewrites_loc_set df mask c v :
  length mask = len df → rewrites [c] df (loc_set df mask c v).
Proof.
  intros Hlen. split; [by apply len_loc_set|]. split; [done|]. split.
  - intros c' Hne%not_elem_of_cons. destruct Hne as [Hne _].
    by rewrite get_col_loc_set_ne.
  - intros subset Hsub. unfold loc_set. simpl.
    rewrite keys_zip_mask; [done| |done].
    intros Hin. apply (Hsub c Hin). left.
Qed.

Lemma only_warnings_nil : only_warnings [].
Proof. by intros r ?%elem_of_nil. Qed.

Lemma only_warnings_app l1 l2 :
  only_warnings l1 → only_warnings l2 → only_warnings (l1 ++ l2).
Proof. intros H1 H2 r [?|?]%elem_of_app; auto. Qed.

Lemma only_warnings_singleton m : only_warnings [WARNING m].
Proof. intros r ->%list_elem_of_singleton. by exists m. Qed.

Lemma only_warnings_sums log :
  only_warnings log →
  duplicates_removed log = 0 ∧ outliers_handled log = 0 ∧ na_rows_dropped log = 0.
Proof.
  unfold duplicates_removed, outliers_handled, na_rows_dropped.
  induction log as [|r log IH]; intros Hw; [done|].
  destruct (Hw r) as [m ->]; [left|]. simpl.
  apply IH. intros r' Hr'. apply Hw. by right.
Qed.

(** A loop whose body returns, keeps an invariant and logs within a class
    of logs closed under concatenation does so as a whole. *)
Lemma for_each_invariant_log {A : Type} (P : DataFrame → Prop)
    (L : list LogRecord → Prop) (l : list A) body df :
  L [] → (∀ l1 l2, L l1 → L l2 → L (l1 ++ l2)) →
  (∀ x df, x ∈ l → P df → ∃ df' log, body x df = Ok df' log ∧ P df' ∧ L log) →
  P df → ∃ df' log, for_each l body df = Ok df' log ∧ P df' ∧ L log.
Proof.
  intros Hnil Happ. revert df. induction l as [|x l IH]; intros df Hbody HP.
  - by exists df, [].
  - destruct (Hbody x df) as (df1 & l1 & Hx & HP1 & HL1); [left|done|].
    destruct (IH df1) as (df2 & l2 & Hl & HP2 & HL2); [|done|].
    { intros y df' Hy. apply Hbody. by right. }
    exists df2, (l1 ++ l2). split; [|split; [done | by apply Happ]].
    rewrite for_each_cons, Hx. simpl. by rewrite Hl.
Qed.

(** A loop of steps that each rewrite their own column rewrites the
    columns of the list. *)
Lemma for_each_rewrites (L : list LogRecord → Prop) cols body df :
  L [] → (∀ l1 l2, L l1 → L l2 → L (l1 ++ l2)) →
  (∀ c df1, ∃ df2 log, body c df1 = Ok df2 log ∧ rewrites [c] df1 df2 ∧ L log) →
  ∃ df' log, for_each cols body df = Ok df' log ∧ rewrites cols df df' ∧ L log.
Proof.
  intros Hnil Happ Hbody.
  apply (for_each_invariant_log (λ df', rewrites cols df df') L); try done.
  intros c df1 Hc Hrw. destruct (Hbody c df1) as (df2 & log & Hstep & Hrw2 & HL).
  exists df2, log. split; [done|]. split; [|done].
  eapply rewrites_trans; [exact Hrw|]. eapply rewrites_weaken; [|exact Hrw2].
  by intros c' ->%list_elem_of_singleton.
Qed.

Lemma mode_step_rewrites c df :
  ∃ df' log, mode_step c df = Ok df' log ∧ rewrites [c] df df' ∧ only_warnings log.
Proof.
  unfold mode_step. destruct (has_column df c) eqn:Hc;
    [|exists df, []; by split; [|split; [|apply only_warnings_nil]]].
  destruct (mode (values (get_col df c))) as [|m rest].
  - eexists _, _. split; [reflexivity|]. split; [|apply only_warnings_singleton].
    apply rewrites_set_col; [done|]. by rewrite length_fillna, length_column.
  - eexists _, _. split; [reflexivity|]. split; [|apply only_warnings_nil].
    apply rewrites_set_col; [done|]. by rewrite length_fillna, length_column.
Qed.

Lemma unknown_step_rewrites c df :
  ∃ df' log, unknown_step c df = Ok df' log ∧ rewrites [c] df df' ∧ log = [].
Proof.
  unfold unknown_step. destruct (has_column df c) eqn:Hc; [|by exists df, []].
  eexists _, _. split; [reflexivity|]. split; [|done].
  apply rewrites_set_col; [done|]. by rewrite length_fillna, length_column.
Qed.

Lemma text_step_rewrites c df :
  ∃ df' log, text_step c df = Ok df' log ∧ rewrites [c] df df' ∧ log = [].
Proof.
  unfold text_step.
  destruct (has_column df c && is_string_dtype (get_col df c)) eqn:Hguard;
    [|by exists df, []].
  apply andb_prop in Hguard as [Hc _].
  eexists _, _. split; [reflexivity|]. split; [|done].
  eapply rewrites_trans; apply rewrites_set_col;
    rewrite ?has_column_set_col_present by done; try done;
    rewrite length_str_map, ?length_column; try done.
Qed.

Section CoercionSteps.
Context `{Readers}.

Lemma date_step_rewrites now c df :
  ∃ df' log,
    date_step now c df = Ok df' log ∧ rewrites [c] df df' ∧ only_warnings log.
Proof.
  unfold date_step. destruct (has_column df c) eqn:Hc;
    [|exists df, []; by split; [|split; [|apply only_warnings_nil]]].
  set (df1 := set_col df c (to_datetime (get_col df c))).
  assert (rewrites [c] df df1) as Hrw1.
  { apply rewrites_set_col; [done|]. by rewrite length_to_datetime, length_column. }
  set (mask := later_mask (values (get_col df1 c)) now).
  assert (rewrites [c] df (loc_set df1 mask c VNull)) as Hrw2.
  { eapply rewrites_trans; [exact Hrw1|]. apply rewrites_loc_set.
    unfold mask, later_mask. by rewrite length_fmap, length_column. }
  destruct (bool_decide _); destruct (any mask);
    (eexists _, _; split; [reflexivity|]; split; [done|];
     repeat apply only_warnings_app;
     auto using only_warnings_nil, only_warnings_singleton).
Qed.

Lemma numeric_step_rewrites c df :
  ∃ df' log,
    numeric_step c df = Ok df' log ∧ rewrites [c] df df' ∧ only_warnings log.
Proof.
  unfold numeric_step. destruct (has_column df c) eqn:Hc;
    [|exists df, []; by split; [|split; [|apply only_warnings_nil]]].
  assert (rewrites [c] df (set_col df c (to_numeric (get_col df c)))) as Hrw.
  { apply rewrites_set_col; [done|]. by rewrite length_to_numeric, length_column. }
  destruct (bool_decide _);
    (eexists _, _; split; [reflexivity|]; split; [done|];
     repeat apply only_warnings_app;
     auto using only_warnings_nil, only_warnings_singleton).
Qed.

(** [_correct_datatypes] always returns; it rewrites cells of the listed
    columns only and logs warnings only. *)
Lemma correct_datatypes_rewrites now df date_columns numeric_columns :
  ∃ df' log,
    _correct_datatypes now df date_columns numeric_columns = Ok df' log ∧
    rewrites (date_columns ++ numeric_columns) df df' ∧
    only_warnings log.
Proof.
  rewrite correct_datatypes_steps.
  destruct (for_each_rewrites only_warnings date_columns (date_step now) df)
    as (df1 & l1 & H1 & Hrw1 & Hw1);
    [apply only_warnings_nil | apply only_warnings_app
    | apply date_step_rewrites |].
  destruct (for_each_rewrites only_warnings numeric_columns numeric_step df1)
    as (df2 & l2 & H2 & Hrw2 & Hw2);
    [apply only_warnings_nil | apply only_warnings_app
    | apply numeric_step_rewrites |].
  exists df2, (l1 ++ (l2 ++ [])). split.
  { rewrite H1. cbn [mbind result_bind]. rewrite H2. reflexivity. }
  split.
  - eapply rewrites_trans; (eapply rewrites_weaken; [|eassumption]);
      intros c Hc; apply elem_of_app; auto.
  - repeat apply only_warnings_app; auto using only_warnings_nil.
Qed.
End CoercionSteps.

(** ** [_handle_missing_values]: when it raises, what it leaves *)

(** The two fill loops always return; the drop-if-null branch then decides
    the outcome. *)
Lemma handle_missing_values_cases df mode_cols unknown_cols drop_cols :
  ∃ dfm lm dfc,
    for_each mode_cols mode_step df = Ok dfm lm ∧
    for_each unknown_cols unknown_step dfm = Ok dfc [] ∧
    rewrites mode_cols df dfm ∧ rewrites unknown_cols dfm dfc ∧
    only_warnings lm ∧
    _handle_missing_values df mode_cols unknown_cols drop_cols =
      if truthy drop_cols then
        match dropna drop_cols dfc with
        | Ok dfd _ =>
            Ok dfd (lm ++ [INFO (DroppedNaRows (len dfc - len dfd) drop_cols)])
        | Raise e => Raise e
        end
      else Ok dfc lm.
Proof.
  destruct (for_each_rewrites only_warnings mode_cols mode_step df)
    as (dfm & lm & Hm & Hrwm & Hwm);
    [apply only_warnings_nil | apply only_warnings_app
    | apply mode_step_rewrites |].
  destruct (for_each_rewrites (λ l, l = []) unknown_cols unknown_step dfm)
    as (dfc & lu & Hu & Hrwu & ->);
    [done | by intros ?? -> -> | apply unknown_step_rewrites |].
  exists dfm, lm, dfc. split; [done|]. split; [done|]. split; [done|].
  split; [done|]. split; [done|].
  rewrite handle_missing_values_steps, Hm. cbn [mbind result_bind].
  rewrite Hu. cbn [mbind result_bind].
  destruct (truthy drop_cols).
  - unfold dropna.
    destruct (filter (λ c, has_column dfc c = false) drop_cols); [|done].
    reflexivity.
  - cbn [mbind result_bind mret result_ret app]. by rewrite ?app_nil_r.
Qed.

Lemma filter_absent_rewrites touched df df' (cols : list string) :
  rewrites touched df df' →
  filter (λ c, has_column df' c = false) cols
  = filter (λ c, has_column df c = false) cols.
Proof.
  intros (_ & Hhas & _). apply list_filter_iff. intros c. by rewrite Hhas.
Qed.

(** X2: [_handle_missing_values] raises exactly when a drop-if-null column
    is not a column of the frame, and the [KeyError] then lists the absent
    ones in the order they were given; with every such column present (or
    none listed) it returns. *)
Theorem handle_missing_values_raises_iff df mode_cols unknown_cols drop_cols :
  match filter (λ c, has_column df c = false) drop_cols with
  | [] =>
      ∃ df' log, _handle_missing_values df mode_cols unknown_cols drop_cols
                 = Ok df' log
  | missing =>
      _handle_missing_values df mode_cols unknown_cols drop_cols
      = Raise (KeyError missing)
  end.
Proof.
  destruct (handle_missing_values_cases df mode_cols unknown_cols drop_cols)
    as (dfm & lm & dfc & _ & _ & Hrwm & Hrwu & _ & ->).
  rewrite <- (filter_absent_rewrites _ _ _ _ Hrwm),
    <- (filter_absent_rewrites _ _ _ _ Hrwu).
  unfold dropna.
  destruct (filter (λ c, has_column dfc c = false) drop_cols) as [|c0 rest] eqn:Hf.
  - destruct (truthy drop_cols); eauto.
  - destruct drop_cols as [|d0 ds]; [done|]. done.
Qed.

(** A loop establishes at the latest when it reaches [x] what each of its
    steps keeps and the step at [x] establishes. *)
Lemma for_each_establishes {A : Type} (Inv P : DataFrame → Prop)
    (l : list A) body (x : A) df :
  (∀ y df1, Inv df1 →
     ∃ df2 log, body y df1 = Ok df2 log ∧ Inv df2 ∧
                (P df1 → P df2) ∧ (y = x → P df2)) →
  Inv df → x ∈ l ∨ P df →
  ∃ df' log, for_each l body df = Ok df' log ∧ Inv df' ∧ P df'.
Proof.
  intros Hbody. revert df. induction l as [|y l IH]; intros df HI Hor.
  - destruct Hor as [?%elem_of_nil|HP]; [done|]. by exists df, [].
  - destruct (Hbody y df HI) as (df1 & l1 & Hy & HI1 & Hkeep & Hest).
    destruct (IH df1 HI1) as (df2 & l2 & Hl & HI2 & HP2).
    { destruct Hor as [[->|Hin]%elem_of_cons|HP]; auto. }
    exists df2, (l1 ++ l2). split; [|done].
    rewrite for_each_cons, Hy. simpl. by rewrite Hl.
Qed.

Lemma no_nulls_fill_nulls v (vs : list Value) x :
  isnull v = false → x ∈ fill_nulls v vs → isnull x = false.
Proof. apply fill_nulls_isnull. Qed.

Lemma mode_loop_no_nulls col mode_cols df :
  has_column df col = true → col ∈ mode_cols ∨ no_nulls df col →
  ∃ df' log,
    for_each mode_cols mode_step df = Ok df' log ∧
    has_column df' col = true ∧ no_nulls df' col.
Proof.
  apply (for_each_establishes (λ df, has_column df col = true)
           (λ df, no_nulls df col)).
  intros c df1 Hc.
  destruct (has_column df1 c) eqn:Hcc.
  - destruct (mode_step_present c df1 Hcc)
      as (df2 & l2 & Hstep & Hcol & _ & _ & Hhas & Hother).
    exists df2, l2. split; [done|]. split; [by rewrite Hhas|]. split.
    + intros Hnn. destruct (decide (c = col)) as [->|Hne].
      * intros v. rewrite Hcol. apply mode_fill_values_isnull.
      * unfold no_nulls, column. by rewrite Hother.
    + intros ->. intros v. rewrite Hcol. apply mode_fill_values_isnull.
  - exists df1, []. split; [by apply mode_step_absent|]. split; [done|].
    split; [done|]. intros ->. congruence.
Qed.

Lemma unknown_loop_no_nulls col unknown_cols df :
  has_column df col = true → col ∈ unknown_cols ∨ no_nulls df col →
  ∃ df' log,
    for_each unknown_cols unknown_step df = Ok df' log ∧
    has_column df' col = true ∧ no_nulls df' col.
Proof.
  apply (for_each_establishes (λ df, has_column df col = true)
           (λ df, no_nulls df col)).
  intros c df1 Hc.
  destruct (has_column df1 c) eqn:Hcc.
  - destruct (unknown_step_present c df1 Hcc)
      as (df2 & Hstep & Hcol & _ & Hhas & Hother).
    exists df2, []. split; [done|]. split; [by rewrite Hhas|]. split.
    + intros Hnn. destruct (decide (c = col)) as [->|Hne].
      * intros v. rewrite Hcol. by apply fill_nulls_isnull.
      * unfold no_nulls, column. by rewrite Hother.
    + intros ->. intros v. rewrite Hcol. by apply fill_nulls_isnull.
  - exists df1, []. split; [by apply unknown_step_absent|]. split; [done|].
    split; [done|]. intros ->. congruence.
Qed.

Lemma elem_of_bool_index_fmap {A : Type} (p : A → bool) (l : list A) x :
  x ∈ bool_index (p <$> l) l → p x = true.
Proof.
  rewrite bool_index_filter. by intros [? _]%list_elem_of_filter.
Qed.

(** What [dropna] returns has no null left in the columns it was given. *)
Lemma dropna_no_nulls subset df df' log col :
  dropna subset df = Ok df' log →
  (col ∈ subset ∨ no_nulls df col) → no_nulls df' col.
Proof.
  unfold dropna.
  destruct (filter (λ c, has_column df c = false) subset); [|done].
  intros [= <- _] Hor v. unfold column, select_rows, get_col. simpl.
  intros (r & -> & Hr)%list_elem_of_fmap. destruct Hor as [Hin|Hnn].
  - apply elem_of_bool_index_fmap in Hr.
    eapply forallb_forall in Hr; [|by apply list_elem_of_In].
    by apply negb_true_iff in Hr.
  - apply Hnn. unfold column, get_col. simpl.
    apply list_elem_of_fmap. exists r. split; [done|].
    by eapply elem_of_bool_index.
Qed.

(** X3: when [_handle_missing_values] returns, no column that it was
    given, for mode-fill, for sentinel-fill or for drop-if-null, and that
    is a column of the frame, holds the null marker any more. *)
Theorem handle_missing_values_no_nulls
    df mode_cols unknown_cols drop_cols df' log col :
  _handle_missing_values df mode_cols unknown_cols drop_cols = Ok df' log →
  col ∈ mode_cols ++ unknown_cols ++ drop_cols →
  has_column df col = true →
  no_nulls df' col.
Proof.
  intros Hrun Hin Hc.
  destruct (handle_missing_values_cases df mode_cols unknown_cols drop_cols)
    as (dfm & lm & dfc & Hm & Hu & Hrwm & _ & _ & Heq).
  rewrite Heq in Hrun. clear Heq.
  assert (col ∈ mode_cols ∨ col ∈ unknown_cols ∨ col ∈ drop_cols) as Hcases.
  { apply elem_of_app in Hin as [?|Hin]; [by left|].
    apply elem_of_app in Hin as [?|?]; auto. }
  assert (has_column dfm col = true) as Hcm
    by (destruct Hrwm as (_ & Hhas & _); by rewrite Hhas).
  assert (col ∈ unknown_cols ∨ no_nulls dfm col ∨
          (col ∈ drop_cols ∧ col ∉ mode_cols)) as Hcases2.
  { destruct (decide (col ∈ mode_cols)) as [Hmode|Hmode].
    - right. left.
      destruct (mode_loop_no_nulls col mode_cols df Hc (or_introl Hmode))
        as (dfm' & lm' & Hm' & _ & Hnn).
      rewrite Hm in Hm'. by injection Hm' as <- _.
    - destruct Hcases as [?|[?|?]]; [done|by left|by right; right]. }
  assert (col ∈ drop_cols ∨ no_nulls dfc col) as Hcases3.
  { destruct Hcases2 as [Hunk|[Hnn|[Hd _]]]; [| |by left].
    - right.
      destruct (unknown_loop_no_nulls col unknown_cols dfm Hcm (or_introl Hunk))
        as (dfc' & lc' & Hu' & _ & Hnn).
      rewrite Hu in Hu'. by injection Hu' as <- _.
    - right.
      destruct (unknown_loop_no_nulls col unknown_cols dfm Hcm (or_intror Hnn))
        as (dfc' & lc' & Hu' & _ & Hnn').
      rewrite Hu in Hu'. by injection Hu' as <- _. }
  destruct (truthy drop_cols) eqn:Htruthy.
  - destruct (dropna drop_cols dfc) as [dfd ld|e] eqn:Hd; [|done].
    injection Hrun as <- _. by eapply dropna_no_nulls.
  - injection Hrun as <- _.
    destruct Hcases3 as [Hd|Hnn]; [|done].
    destruct drop_cols; [by apply elem_of_nil in Hd | done].
Qed.

Lemma handle_missing_values_no_nulls_witness :
  ∃ df' log,
    _handle_missing_values gaps_example ["payment_method"] ["item_name"]
      ["order_total"] = Ok df' log ∧
    no_nulls df' "payment_method" ∧ no_nulls df' "item_name" ∧
    no_nulls df' "order_total".
Proof.
  let r := eval vm_compute in
    (_handle_missing_values gaps_example ["payment_method"] ["item_name"]
       ["order_total"]) in
  match r with
  | Ok ?d ?l =>
      assert (_handle_missing_values gaps_example ["payment_method"]
                ["item_name"] ["order_total"] = Ok d l) as Hrun
        by (vm_compute; reflexivity);
      exists d, l; split; [exact Hrun|];
      repeat split;
        (eapply (handle_missing_values_no_nulls gaps_example); [exact Hrun| |]);
        try (vm_compute; reflexivity)
  end.
  - left.
  - right. left.
  - right. right. left.
Defined.

Lemma fill_nulls_lookup_nonnull m (vs : list Value) i v :
  vs !! i = Some v → isnull v = false → fill_nulls m vs !! i = Some v.
Proof.
  intros Hi Hv. unfold fill_nulls. rewrite list_lookup_fmap, Hi. simpl.
  by rewrite Hv.
Qed.

Lemma mode_fill_values_lookup_nonnull (vs : list Value) i v :
  vs !! i = Some v → isnull v = false → mode_fill_values vs !! i = Some v.
Proof.
  intros Hi Hv. unfold mode_fill_values.
  destruct (mode vs); by apply fill_nulls_lookup_nonnull.
Qed.

Lemma mode_step_keeps_values c0 df1 :
  ∃ df2 log,
    mode_step c0 df1 = Ok df2 log ∧
    ∀ c i v, column df1 c !! i = Some v → isnull v = false →
             column df2 c !! i = Some v.
Proof.
  destruct (has_column df1 c0) eqn:Hc.
  - destruct (mode_step_present c0 df1 Hc)
      as (df2 & l2 & Hstep & Hcol & _ & _ & _ & Hother).
    exists df2, l2. split; [done|]. intros c i v Hi Hv.
    destruct (decide (c = c0)) as [->|Hne].
    + rewrite Hcol. by apply mode_fill_values_lookup_nonnull.
    + unfold column in *. by rewrite Hother.
  - exists df1, []. split; [by apply mode_step_absent | done].
Qed.

Lemma unknown_step_keeps_values c0 df1 :
  ∃ df2 log,
    unknown_step c0 df1 = Ok df2 log ∧
    ∀ c i v, column df1 c !! i = Some v → isnull v = false →
             column df2 c !! i = Some v.
Proof.
  destruct (has_column df1 c0) eqn:Hc.
  - destruct (unknown_step_present c0 df1 Hc)
      as (df2 & Hstep & Hcol & _ & _ & Hother).
    exists df2, []. split; [done|]. intros c i v Hi Hv.
    destruct (decide (c = c0)) as [->|Hne].
    + rewrite Hcol. by apply fill_nulls_lookup_nonnull.
    + unfold column in *. by rewrite Hother.
  - exists df1, []. split; [by apply unknown_step_absent | done].
Qed.

(** X4: the two fills write only where there was a null.  Without
    drop-if-null columns [_handle_missing_values] returns a frame of as
    many rows in which every cell that held a value, in whatever column,
    still holds it. *)
Theorem handle_missing_values_keeps_values df mode_cols unknown_cols :
  ∃ df' log,
    _handle_missing_values df mode_cols unknown_cols [] = Ok df' log ∧
    len df' = len df ∧
    ∀ c i v, column df c !! i = Some v → isnull v = false →
             column df' c !! i = Some v.
Proof.
  destruct (handle_missing_values_cases df mode_cols unknown_cols [])
    as (dfm & lm & dfc & Hm & Hu & Hrwm & Hrwu & _ & Heq).
  exists dfc, lm. split; [exact Heq|]. split.
  { destruct Hrwm as [Hl1 _], Hrwu as [Hl2 _]. congruence. }
  pose (K := λ (df0 df1 : DataFrame),
          ∀ c i v, column df0 c !! i = Some v → isnull v = false →
                   column df1 c !! i = Some v).
  destruct (for_each_invariant (K df) mode_cols mode_step df)
    as (dfm' & lm' & Hm' & Hkm); [|by intros c i v ??|].
  { intros c0 df1 _ HK. destruct (mode_step_keeps_values c0 df1)
      as (df2 & l2 & Hstep & Hkeep).
    exists df2, l2. split; [done|]. intros c i v Hi Hv.
    apply Hkeep; [by apply HK | done]. }
  rewrite Hm in Hm'. injection Hm' as <- <-.
  destruct (for_each_invariant (K df) unknown_cols unknown_step dfm)
    as (dfc' & lc' & Hu' & Hkc); [|done|].
  { intros c0 df1 _ HK. destruct (unknown_step_keeps_values c0 df1)
      as (df2 & l2 & Hstep & Hkeep).
    exists df2, l2. split; [done|]. intros c i v Hi Hv.
    apply Hkeep; [by apply HK | done]. }
  rewrite Hu in Hu'. by injection Hu' as <- _.
Qed.

(** ** Columns that are absent, once more *)

Lemma for_each_skip {A : Type} (l : list A) body df :
  (∀ x, x ∈ l → body x df = Ok df []) → for_each l body df = Ok df [].
Proof.
  induction l as [|x l IH]; intros Hbody; [done|].
  rewrite for_each_cons, Hbody by left. simpl.
  by rewrite IH by (intros y Hy; apply Hbody; by right).
Qed.

Section AbsentColumns.
Context `{Readers}.

(** X1: the five guarded operations skip what is not there.  When none of
    the columns listed for coercion, for the two fills and for text
    normalisation is a column of the frame, when some column of the
    duplicate key is not, and when the outlier column is not, each of
    them returns the very frame it was given and logs nothing. *)
Theorem absent_columns_are_skipped
    now df subset_cols date_columns numeric_columns mode_cols unknown_cols
    col lower_bound upper_quantile strategy text_cols :
  (∀ c, c ∈ date_columns ++ numeric_columns ++ mode_cols ++ unknown_cols
              ++ text_cols → has_column df c = false) →
  (∃ c, c ∈ subset_cols ∧ has_column df c = false) →
  has_column df col = false →
  _handle_duplicates df subset_cols = Ok df [] ∧
  _correct_datatypes now df date_columns numeric_columns = Ok df [] ∧
  _handle_missing_values df mode_cols unknown_cols [] = Ok df [] ∧
  _handle_outliers df col lower_bound upper_quantile strategy = Ok df [] ∧
  _standardize_text_columns df text_cols = Ok df [].
Proof.
  intros Habsent (c0 & Hc0 & Hc0abs) Hcol.
  assert (∀ c, c ∈ date_columns → has_column df c = false) as Hd
    by (intros c Hc; apply Habsent; rewrite !elem_of_app; auto).
  assert (∀ c, c ∈ numeric_columns → has_column df c = false) as Hn
    by (intros c Hc; apply Habsent; rewrite !elem_of_app; auto).
  assert (∀ c, c ∈ mode_cols → has_column df c = false) as Hm
    by (intros c Hc; apply Habsent; rewrite !elem_of_app; auto).
  assert (∀ c, c ∈ unknown_cols → has_column df c = false) as Hu
    by (intros c Hc; apply Habsent; rewrite !elem_of_app; auto).
  assert (∀ c, c ∈ text_cols → has_column df c = false) as Ht
    by (intros c Hc; apply Habsent; rewrite !elem_of_app; auto 10).
  split; [by eapply handle_duplicates_absent|].
  split.
  { rewrite correct_datatypes_steps.
    rewrite (for_each_skip date_columns)
      by (intros c Hc; by apply date_step_absent, Hd).
    cbn [mbind result_bind].
    by rewrite (for_each_skip numeric_columns)
      by (intros c Hc; by apply numeric_step_absent, Hn). }
  split.
  { rewrite handle_missing_values_steps.
    rewrite (for_each_skip mode_cols)
      by (intros c Hc; by apply mode_step_absent, Hm).
    cbn [mbind result_bind].
    by rewrite (for_each_skip unknown_cols)
      by (intros c Hc; by apply unknown_step_absent, Hu). }
  split; [by apply handle_outliers_absent|].
  rewrite standardize_text_columns_steps.
  apply for_each_skip. intros c Hc. by apply text_step_absent, Ht.
Qed.
End AbsentColumns.

Lemma absent_columns_are_skipped_witness :
  _handle_duplicates sources_example ["transaction_id"; "order_total"]
    = Ok sources_example [] ∧
  @_correct_datatypes no_readers 0 sources_example
    ["transaction_timestamps"] ["quantity"; "item_price"]
    = Ok sources_example [] ∧
  _handle_missing_values sources_example ["payment_method"] ["item_name"] []
    = Ok sources_example [] ∧
  _handle_outliers sources_example "quantity" (Some 1%Q) (Some (99 # 100)) "cap"
    = Ok sources_example [] ∧
  _standardize_text_columns sources_example ["item_category"]
    = Ok sources_example [].
Proof.
  apply (@absent_columns_are_skipped no_readers 0 sources_example
           ["transaction_id"; "order_total"] ["transaction_timestamps"]
           ["quantity"; "item_price"] ["payment_method"] ["item_name"]
           "quantity" (Some 1%Q) (Some (99 # 100)) "cap" ["item_category"]).
  - intros c Hc. apply list_elem_of_In in Hc. simpl in Hc.
    repeat (destruct Hc as [<-|Hc]; [vm_compute; reflexivity|]). done.
  - exists "transaction_id". split; [left | vm_compute; reflexivity].
  - vm_compute. reflexivity.
Defined.

(** ** The strategies "nan" and "remove", and the others *)








(** ** Coercion leaves columns of the canonical type *)

Section CoercionTypes.
Context `{Readers}.




End CoercionTypes.


(** ** Text normalisation is idempotent *)








Lemma title_from_empty b s : title_from b s = EmptyString → s = EmptyString.
Proof. destruct s as [|c s]; [done|]. simpl. by destruct (is_cased c). Qed.










Lemma is_string_dtype_str_map f s :
  is_string_dtype (str_map f s) = is_string_dtype s.
Proof.
  unfold is_string_dtype, str_map. simpl. f_equal.
  induction (values s) as [|v vs IH]; [done|].
  rewrite fmap_cons. simpl. rewrite IH. by destruct v.
Qed.



(** ** Summaries of the five operations, for the pipelines *)

Lemma length_bool_index_le {A : Type} mask (l : list A) :
  (length (bool_index mask l) ≤ length l)%nat.
Proof. apply sublist_length, bool_index_sublist. Qed.

Lemma cells_evolves touched df df' c (P : Value → Prop) :
  evolves touched df df' → c ∉ touched →
  (∀ v, v ∈ column df c → P v) → ∀ v, v ∈ column df' c → P v.
Proof.
  intros (_ & Hcol & _) Hc HP v Hv. destruct (Hcol c Hc) as [_ Hsub]. auto.
Qed.

Lemma dtype_evolves touched df df' c :
  evolves touched df df' → c ∉ touched →
  dtype (get_col df' c) = dtype (get_col df c).
Proof. intros (_ & Hcol & _) Hc. by destruct (Hcol c Hc). Qed.

(** [_handle_duplicates] always returns; it only removes rows, and it
    logs how many. *)
Lemma handle_duplicates_summary df subset_cols :
  ∃ df' log,
    _handle_duplicates df subset_cols = Ok df' log ∧
    evolves [] df df' ∧
    len df = len df' + duplicates_removed log ∧
    na_rows_dropped log = 0 ∧ outliers_handled log = 0.
Proof.
  unfold _handle_duplicates.
  destruct (truthy subset_cols && forallb (has_column df) subset_cols).
  - eexists _, _. split; [reflexivity|].
    split; [apply evolves_select_rows|].
    assert (len (drop_duplicates subset_cols df) ≤ len df)%nat as Hle
      by apply length_bool_index_le.
    unfold duplicates_removed, na_rows_dropped, outliers_handled. simpl.
    split; [lia | done].
  - exists df, []. split; [done|]. split; [done|].
    unfold duplicates_removed. simpl. split; [lia | done].
Qed.

Lemma isnull_cap_below lower_bound v : isnull (cap_below lower_bound v) = isnull v.
Proof.
  unfold cap_below. destruct lower_bound as [lb|]; [|done].
  destruct (value_ltb v lb) eqn:Hlt; [|done]. by destruct v.
Qed.

Lemma isnull_cap_above limit v : isnull (cap_above limit v) = isnull v.
Proof.
  unfold cap_above. destruct (value_gtb v limit) eqn:Hgt; [|done].
  destruct v; try done. by destruct limit.
Qed.

(** A clip pass always returns when its quantile is one; it rewrites cells
    of its column only, puts no null there, and leaves the numbers of a
    numeric column above the lower bound. *)
Lemma handle_outliers_cap_summary df col lower_bound upper_quantile :
  (∀ q, upper_quantile = Some q → (0 <= q)%Q ∧ (q <= 1)%Q) →
  ∃ df' log,
    _handle_outliers df col lower_bound upper_quantile "cap" = Ok df' log ∧
    rewrites [col] df df' ∧
    duplicates_removed log = 0 ∧ na_rows_dropped log = 0 ∧
    (no_nulls df col → no_nulls df' col) ∧
    (∀ lb, lower_bound = Some lb → has_column df col = true →
       dtype (get_col df col) = Numeric →
       ∀ x, VNum x ∈ column df' col → (lb <= x)%Q).
Proof.
  intros Hq.
  destruct (has_column df col && is_numeric_dtype (get_col df col)) eqn:Hguard.
  2:{ exists df, []. split; [unfold _handle_outliers; by rewrite Hguard|].
      split; [done|]. split; [done|]. split; [done|]. split; [done|].
      intros lb _ Hc Hd. unfold is_numeric_dtype in Hguard.
      by rewrite Hc, Hd in Hguard. }
  apply andb_prop in Hguard as [Hc Hd]. apply bool_decide_eq_true in Hd.
  rewrite (handle_outliers_present _ _ _ _ _ Hc Hd). cbn zeta.
  set (df1 := match lower_bound with Some lb => _ | None => df end).
  assert (column df1 col = cap_below lower_bound <$> column df col) as Hlow.
  { rewrite <- after_lower_bound_cap. subst df1.
    destruct lower_bound as [lb|]; [|done]. apply column_apply_strategy. }
  assert (rewrites [col] df df1) as Hrw1.
  { subst df1. destruct lower_bound as [lb|]; [|done].
    apply rewrites_loc_set. unfold lt_mask, column.
    by rewrite length_fmap, length_column. }
  assert (∀ x lb, lower_bound = Some lb → VNum x ∈ column df1 col → (lb <= x)%Q)
    as Hge.
  { intros x lb -> Hin. rewrite Hlow in Hin. by eapply cap_below_ge. }
  assert (no_nulls df col → no_nulls df1 col) as Hnn1.
  { intros Hnn v. rewrite Hlow. intros (w & -> & Hw)%list_elem_of_fmap.
    rewrite isnull_cap_below. by apply Hnn. }
  destruct upper_quantile as [q|].
  - destruct (Hq q eq_refl) as [Hq0 Hq1]. rewrite quantile_Ok by done.
    set (limit := quantile_sorted _ q).
    assert (column (apply_strategy "cap" df1 (gt_mask (column df1 col) limit) col
                      (limit_value limit)) col
            = cap_above limit <$> column df1 col) as Hup
      by apply column_apply_strategy.
    eexists _, _. split; [reflexivity|]. split; [|split; [done|split; [done|]]].
    { eapply rewrites_trans; [exact Hrw1|].
      apply rewrites_loc_set. unfold gt_mask, column.
      by rewrite length_fmap, length_column. }
    split.
    + intros Hnn v. rewrite Hup. intros (w & -> & Hw)%list_elem_of_fmap.
      rewrite isnull_cap_above. by apply Hnn1.
    + intros lb Hlb _ _ x. rewrite Hup.
      intros (w & Heq & Hw)%list_elem_of_fmap. unfold cap_above in Heq.
      destruct (value_gtb w limit) eqn:Hgt.
      * destruct w as [|y| |]; try done. simpl in Hgt.
        destruct limit as [u|] eqn:Hlim; [|done]. injection Heq as ->.
        eapply quantile_ge; [|exact Hlim]. intros z Hz. by eapply Hge.
      * subst w. by eapply Hge.
  - eexists _, _. split; [reflexivity|]. split; [done|].
    split; [done|]. split; [done|]. split; [done|].
    intros lb Hlb _ _ x Hx. by eapply Hge.
Qed.

Lemma isnull_str_map f s v :
  v ∈ values (str_map f s) → isnull v = false ∨ VNull ∈ values s.
Proof.
  unfold str_map. simpl. intros (w & -> & Hw)%list_elem_of_fmap.
  destruct w; auto.
Qed.

(** [_standardize_text_columns] always returns, logs nothing, rewrites
    cells of the listed columns only and puts no null anywhere. *)
Lemma standardize_text_summary df columns :
  ∃ df',
    _standardize_text_columns df columns = Ok df' [] ∧
    rewrites columns df df' ∧
    ∀ c, no_nulls df c → no_nulls df' c.
Proof.
  rewrite standardize_text_columns_steps.
  destruct (for_each_invariant_log
              (λ dfk, rewrites columns df dfk ∧ ∀ c, no_nulls df c → no_nulls dfk c)
              (λ l, l = []) columns text_step df)
    as (df' & l & Hrun & [Hrw Hnn] & ->); [done | by intros ?? -> -> | | done |].
  - intros x dfk Hx [Hrw Hnn].
    destruct (text_step_rewrites x dfk) as (df2 & l2 & Hstep & Hrw2 & ->).
    destruct (text_step_frame x dfk) as (df2' & Hstep' & Hother & _ & Hself).
    rewrite Hstep in Hstep'. injection Hstep' as <-.
    exists df2, []. split; [done|]. split; [|done]. split.
    + eapply rewrites_trans; [exact Hrw|]. eapply rewrites_weaken; [|exact Hrw2].
      by intros c ->%list_elem_of_singleton.
    + intros c Hc. specialize (Hnn c Hc).
      destruct (decide (c = x)) as [->|Hne];
        [|unfold no_nulls, column; by rewrite Hother].
      destruct (has_column dfk x && is_string_dtype (get_col dfk x)) eqn:Hguard.
      * apply andb_prop in Hguard as [Hp Hs]. intros v. unfold column.
        rewrite (Hself Hp Hs). intros [?|Hnull]%isnull_str_map; [done|].
        apply isnull_str_map in Hnull as [?|Hnull]; [done|]. by apply Hnn in Hnull.
      * assert (df2 = dfk) as ->; [|done].
        unfold text_step in Hstep. rewrite Hguard in Hstep. by injection Hstep.
  - by exists df'.
Qed.

(** ** The pipelines: when they return and what they guarantee *)

Lemma duplicates_removed_app l1 l2 :
  duplicates_removed (l1 ++ l2) = duplicates_removed l1 + duplicates_removed l2.
Proof. apply sum_list_with_app. Qed.

Lemma na_rows_dropped_app l1 l2 :
  na_rows_dropped (l1 ++ l2) = na_rows_dropped l1 + na_rows_dropped l2.
Proof. apply sum_list_with_app. Qed.

Lemma filter_absent_evolves touched df df' (cols : list string) :
  evolves touched df df' →
  filter (λ c, has_column df' c = false) cols
  = filter (λ c, has_column df c = false) cols.
Proof.
  intros (Hhas & _). apply list_filter_iff. intros c. by rewrite Hhas.
Qed.

Lemma no_nulls_rewrites touched df df' c :
  rewrites touched df df' → c ∉ touched → no_nulls df c → no_nulls df' c.
Proof.
  intros (_ & _ & Hcol & _) Hc Hnn. unfold no_nulls, column.
  by rewrite (Hcol c Hc).
Qed.

Ltac not_listed :=
  let H := fresh in
  intros H; repeat (apply elem_of_cons in H as [H|H]; [discriminate H|]);
  by apply elem_of_nil in H.

Lemma len_evolves touched df df' : evolves touched df df' → (len df' ≤ len df)%nat.
Proof.
  intros (_ & _ & Hkeys). specialize (Hkeys [] ltac:(by intros ? ?%elem_of_nil)).
  apply sublist_length in Hkeys. by rewrite !length_fmap in Hkeys.
Qed.

Lemma no_nulls_rewrites_1 x df df' :
  rewrites [x] df df' → (no_nulls df x → no_nulls df' x) →
  ∀ c, no_nulls df c → no_nulls df' c.
Proof.
  intros Hrw Hx c Hc. destruct (decide (c = x)) as [->|Hne]; [auto|].
  eapply no_nulls_rewrites; [exact Hrw| |done].
  by intros ->%list_elem_of_singleton.
Qed.

(** The two fill loops leave no null in a listed column that is present. *)
Lemma fills_no_nulls df mode_cols unknown_cols dfm lm dfc lu col :
  for_each mode_cols mode_step df = Ok dfm lm →
  for_each unknown_cols unknown_step dfm = Ok dfc lu →
  rewrites mode_cols df dfm →
  has_column df col = true → col ∈ mode_cols ++ unknown_cols →
  no_nulls dfc col.
Proof.
  intros Hm Hu (_ & Hhas & _) Hc Hin.
  destruct (decide (col ∈ mode_cols)) as [Hmode|Hmode].
  - destruct (mode_loop_no_nulls col mode_cols df Hc (or_introl Hmode))
      as (dfm' & lm' & Hm' & Hcm & Hnm).
    rewrite Hm in Hm'. injection Hm' as <- <-.
    destruct (unknown_loop_no_nulls col unknown_cols dfm Hcm (or_intror Hnm))
      as (dfc' & lu' & Hu' & Hcc & Hnc).
    rewrite Hu in Hu'. by injection Hu' as <- <-.
  - apply elem_of_app in Hin as [?|Hunk]; [done|].
    destruct (unknown_loop_no_nulls col unknown_cols dfm) as
      (dfc' & lu' & Hu' & Hcc & Hnc); [by rewrite Hhas | by left |].
    rewrite Hu in Hu'. by injection Hu' as <- <-.
Qed.

Lemma filter_absent_nil df (cols : list string) c :
  filter (λ c, has_column df c = false) cols = [] → c ∈ cols →
  has_column df c = true.
Proof.
  intros Hnil Hc. destruct (has_column df c) eqn:Hhas; [done|].
  assert (c ∈ filter (λ c, has_column df c = false) cols) as Hin
    by by apply list_elem_of_filter.
  rewrite Hnil in Hin. by apply elem_of_nil in Hin.
Qed.

Section PipelineGuarantees.
Context `{Readers}.

(** What the coercion leaves in the columns it lists. *)
Lemma correct_datatypes_summary now df date_columns numeric_columns :
  ∃ df' log,
    _correct_datatypes now df date_columns numeric_columns = Ok df' log ∧
    rewrites (date_columns ++ numeric_columns) df df' ∧
    only_warnings log ∧
    (∀ c, c ∈ numeric_columns → has_column df c = true →
       dtype (get_col df' c) = Numeric) ∧
    (∀ c, c ∈ date_columns → c ∉ numeric_columns → has_column df c = true →
       ∀ t, VTime t ∈ column df' c → (t ≤ now)%Z).
Proof.
  destruct (correct_datatypes_rewrites now df date_columns numeric_columns)
    as (df' & log & Hrun & Hrw & Hw).
  exists df', log. split; [done|]. split; [done|]. split; [done|].
  rewrite correct_datatypes_steps in Hrun. split.
  - intros c Hin Hc.
    destruct (date_loop now c date_columns df Hc) as (df1 & l1 & Hloop & Hc1 & _).
    destruct (for_each_establishes (λ d, has_column d c = true)
                (λ d, dtype (get_col d c) = Numeric)
                numeric_columns numeric_step c df1)
      as (df2 & l2 & H2 & _ & HP); [|done|by left|].
    { intros y d Hd. destruct (has_column d y) eqn:Hy.
      - destruct (numeric_step_present y d Hy)
          as (d2 & l2 & Hstep & Hcol & _ & Hhas & Hother).
        exists d2, l2. split; [done|]. split; [by rewrite Hhas|].
        split; [|by intros ->; rewrite Hcol].
        intros HP. destruct (decide (y = c)) as [->|Hne]; [by rewrite Hcol|].
        by rewrite Hother.
      - exists d, []. split; [by apply numeric_step_absent|]. split; [done|].
        split; [done|]. intros ->. congruence. }
    rewrite Hloop in Hrun. cbn [mbind result_bind] in Hrun.
    rewrite H2 in Hrun. by injection Hrun as <- _.
  - intros c Hin Hnotin Hc.
    destruct (date_loop now c date_columns df Hc)
      as (df1 & l1 & Hloop & Hc1 & Hcol1 & _).
    destruct (numeric_loop c numeric_columns df1 Hnotin)
      as (df2 & l2 & Hnum & Hcol2 & _).
    rewrite Hloop in Hrun. cbn [mbind result_bind] in Hrun.
    rewrite Hnum in Hrun. injection Hrun as <- _.
    unfold column. rewrite Hcol2, (Hcol1 Hin). simpl.
    intros t (v & Heq & _)%list_elem_of_fmap.
    unfold coerce_date in Heq.
    destruct (value_later (to_datetime_value v) now) eqn:Hlater; [done|].
    rewrite <- Heq in Hlater. simpl in Hlater. by apply Z.ltb_ge.
Qed.

(** The transaction pipeline: its outcome, and what the frame it returns
    satisfies. *)
Lemma clean_transactions_data_summary now df :
  match filter (λ c, has_column df c = false) ["order_total"; "quantity"] with
  | [] =>
      ∃ df' log,
        clean_transactions_data now df = Ok df' log ∧
        (∀ c, has_column df' c = has_column df c) ∧
        (∀ c, c ∈ ["order_total"; "quantity"; "payment_method"; "order_source";
                   "item_name"; "item_category"] →
           has_column df c = true → no_nulls df' c) ∧
        (∀ x, VNum x ∈ column df' "order_total" → (1 # 10 <= x)%Q) ∧
        (∀ x, VNum x ∈ column df' "quantity" → (1 <= x)%Q) ∧
        (has_column df "transaction_timestamps" = true →
           ∀ t, VTime t ∈ column df' "transaction_timestamps" → (t ≤ now)%Z) ∧
        len df = len df' + duplicates_removed log + na_rows_dropped log
  | missing => clean_transactions_data now df = Raise (KeyError missing)
  end.
Proof.
  unfold clean_transactions_data.
  destruct (handle_duplicates_summary df
              ["transaction_id"; "customer_id"; "transaction_timestamps";
               "order_total"; "item_name"])
    as (dfa & la & Ha & Eva & Hlena & Hnaa & _).
  rewrite Ha. cbn [mbind result_bind].
  destruct (correct_datatypes_summary now dfa ["transaction_timestamps"]
              ["order_total"; "quantity"; "item_price"])
    as (dfb & lb & Hb & Rwb & Hwb & Hnumb & Hdateb).
  rewrite Hb. cbn [mbind result_bind].
  destruct (handle_missing_values_cases dfb ["payment_method"; "order_source"]
              ["item_name"; "item_category"] ["order_total"; "quantity"])
    as (dfm & lm & dfc & Hm & Hu & Rwm & Rwu & Hwm & ->).
  cbn [truthy].
  rewrite <- (filter_absent_evolves _ _ _ _ Eva),
    <- (filter_absent_rewrites _ _ _ _ Rwb),
    <- (filter_absent_rewrites _ _ _ _ Rwm),
    <- (filter_absent_rewrites _ _ _ _ Rwu).
  destruct (dropna ["order_total"; "quantity"] dfc) as [dfd ld|e] eqn:Hd.
  2:{ unfold dropna in Hd.
      destruct (filter (λ c, has_column dfc c = false) ["order_total"; "quantity"]);
        [done|]. by injection Hd as <-. }
  assert (filter (λ c, has_column dfc c = false) ["order_total"; "quantity"] = [])
    as ->.
  { unfold dropna in Hd. by destruct (filter _ _). }
  cbn [mbind result_bind].
  assert (∀ c, c ∈ ["payment_method"; "order_source"; "item_name"; "item_category"] →
            has_column dfb c = true → no_nulls dfc c) as Hfilled.
  { intros c Hc Hhas. by eapply (fills_no_nulls dfb). }
  assert (∀ c, c ∈ ["order_total"; "quantity"; "payment_method"; "order_source";
                    "item_name"; "item_category"] →
            has_column dfb c = true → no_nulls dfd c) as Hnnd.
  { intros c Hc Hhas.
    apply elem_of_cons in Hc as [->|Hc];
      [eapply dropna_no_nulls; [exact Hd|]; left; apply list_elem_of_In; simpl; tauto|].
    apply elem_of_cons in Hc as [->|Hc];
      [eapply dropna_no_nulls; [exact Hd|]; left; apply list_elem_of_In; simpl; tauto|].
    eapply dropna_no_nulls; [exact Hd|]. right. by apply Hfilled. }
  apply dropna_evolves in Hd as (-> & Evd & Hpresent).
  destruct (handle_outliers_cap_summary dfd "order_total" (Some (1 # 10))
              (Some (99 # 100)))
    as (dfe & le & He & Rwe & Hdupe & Hnae & Hnne & Hrangee);
    [by intros q [= <-]|].
  rewrite He. cbn [mbind result_bind].
  destruct (handle_outliers_cap_summary dfe "quantity" (Some 1%Q) (Some (99 # 100)))
    as (dff & lf & Hf & Rwf & Hdupf & Hnaf & Hnnf & Hrangef);
    [by intros q [= <-]|].
  rewrite Hf. cbn [mbind result_bind].
  destruct (standardize_text_summary dff
              ["item_name"; "item_category"; "payment_method"; "order_source"])
    as (dfg & Hg & Rwg & Hnng).
  rewrite Hg. cbn [mbind result_bind mret result_ret info].
  eexists _, _. split; [reflexivity|].
  pose proof Eva as (Hhasa & _). pose proof Rwb as (Hlenb & Hhasb & Hcolb & _).
  pose proof Rwm as (Hlenm & Hhasm & Hcolm & _).
  pose proof Rwu as (Hlenu & Hhasu & Hcolu & _).
  pose proof Evd as (Hhasd & _). pose proof Rwe as (Hlene & Hhase & Hcole & _).
  pose proof Rwf as (Hlenf & Hhasf & Hcolf & _).
  pose proof Rwg as (Hleng & Hhasg & Hcolg & _).
  assert (∀ c, c ∈ ["order_total"; "quantity"] →
            dtype (get_col dfd c) = Numeric) as Hnumd.
  { intros c Hc.
    rewrite (dtype_evolves _ _ _ _ Evd) by apply not_elem_of_nil.
    rewrite Hcolu, Hcolm;
      [|revert Hc; clear; intros Hc; apply elem_of_cons in Hc as [->|Hc];
          [not_listed|apply list_elem_of_singleton in Hc as ->; not_listed]..].
    apply Hnumb.
    - apply elem_of_cons in Hc as [->|Hc]; [left|right].
      apply list_elem_of_singleton in Hc as ->. left.
    - rewrite <- Hhasb, <- Hhasm, <- Hhasu. by apply Hpresent. }
  split; [intros c; by rewrite Hhasg, Hhasf, Hhase, Hhasd, Hhasu, Hhasm, Hhasb|].
  split; [|split; [|split; [|split]]].
  - intros c Hc Hhas. apply Hnng.
    apply (no_nulls_rewrites_1 _ _ _ Rwf Hnnf).
    apply (no_nulls_rewrites_1 _ _ _ Rwe Hnne).
    apply Hnnd; [done|]. by rewrite Hhasb, Hhasa.
  - intros x. unfold column. rewrite Hcolg, Hcolf by not_listed.
    apply (Hrangee (1 # 10)); [done| |].
    + rewrite Hhasd. apply Hpresent. left.
    + apply Hnumd. left.
  - intros x. unfold column. rewrite Hcolg by not_listed.
    apply (Hrangef 1%Q); [done| |].
    + rewrite Hhase, Hhasd. apply Hpresent. right. left.
    + rewrite Hcole by not_listed. apply Hnumd. right. left.
  - intros Hts t. unfold column. rewrite Hcolg, Hcolf, Hcole by not_listed.
    revert t.
    cut (∀ v, v ∈ column dfd "transaction_timestamps" →
              ∀ t, v = VTime t → (t ≤ now)%Z).
    { intros Hcut t Ht. by eapply Hcut. }
    apply (cells_evolves [] dfc dfd "transaction_timestamps"
             (λ v, ∀ t, v = VTime t → (t ≤ now)%Z));
      [done|apply not_elem_of_nil|].
    intros v Hv t ->. revert Hv. unfold column.
    rewrite Hcolu, Hcolm by not_listed.
    apply Hdateb; [left|not_listed|by rewrite Hhasa].
  - apply len_evolves in Evd.
    rewrite !duplicates_removed_app, !na_rows_dropped_app.
    destruct (only_warnings_sums lb Hwb) as (-> & _ & ->).
    destruct (only_warnings_sums lm Hwm) as (-> & _ & ->).
    rewrite Hdupe, Hdupf, Hnae, Hnaf, Hnaa, Hleng, Hlenf, Hlene, Hlena.
    generalize (duplicates_removed la). intros n.
    unfold duplicates_removed, na_rows_dropped. simpl. lia.
Qed.

(** The customer pipeline. *)
Lemma clean_customer_data_summary now df :
  match filter (λ c, has_column df c = false) ["customer_id"] with
  | [] =>
      ∃ df' log,
        clean_customer_data now df = Ok df' log ∧
        (∀ c, has_column df' c = has_column df c) ∧
        (∀ c, c ∈ ["customer_id"; "email"; "phone"; "address"; "gender"] →
           has_column df c = true → no_nulls df' c) ∧
        (has_column df "DOB" = true →
           ∀ t, VTime t ∈ column df' "DOB" → (t ≤ now)%Z) ∧
        (has_column df "age" = true → dtype (get_col df "age") = Numeric →
           ∀ x, VNum x ∈ column df' "age" → (0 <= x)%Q) ∧
        len df = len df' + duplicates_removed log + na_rows_dropped log
  | missing => clean_customer_data now df = Raise (KeyError missing)
  end.
Proof.
  unfold clean_customer_data.
  destruct (handle_duplicates_summary df ["customer_id"; "email"])
    as (dfa & la & Ha & Eva & Hlena & Hnaa & _).
  rewrite Ha. cbn [mbind result_bind].
  destruct (correct_datatypes_summary now dfa ["DOB"] [])
    as (dfb & lb & Hb & Rwb & Hwb & _ & Hdateb).
  rewrite Hb. cbn [mbind result_bind].
  destruct (handle_missing_values_cases dfb []
              ["email"; "phone"; "address"; "gender"] ["customer_id"])
    as (dfm & lm & dfc & Hm & Hu & Rwm & Rwu & Hwm & ->).
  cbn [truthy].
  rewrite <- (filter_absent_evolves _ _ _ _ Eva),
    <- (filter_absent_rewrites _ _ _ _ Rwb),
    <- (filter_absent_rewrites _ _ _ _ Rwm),
    <- (filter_absent_rewrites _ _ _ _ Rwu).
  destruct (dropna ["customer_id"] dfc) as [dfd ld|e] eqn:Hd.
  2:{ unfold dropna in Hd.
      destruct (filter (λ c, has_column dfc c = false) ["customer_id"]);
        [done|]. by injection Hd as <-. }
  assert (filter (λ c, has_column dfc c = false) ["customer_id"] = []) as ->.
  { unfold dropna in Hd. by destruct (filter _ _). }
  cbn [mbind result_bind].
  assert (∀ c, c ∈ ["customer_id"; "email"; "phone"; "address"; "gender"] →
            has_column dfb c = true → no_nulls dfd c) as Hnnd.
  { intros c Hc Hhas.
    apply elem_of_cons in Hc as [->|Hc];
      [eapply dropna_no_nulls; [exact Hd|]; left; left|].
    eapply dropna_no_nulls; [exact Hd|]. right.
    by eapply (fills_no_nulls dfb). }
  apply dropna_evolves in Hd as (-> & Evd & Hpresent).
  destruct (handle_outliers_cap_summary dfd "age" (Some 0%Q) (Some (999 # 1000)))
    as (dfe & le & He & Rwe & Hdupe & Hnae & Hnne & Hrangee);
    [by intros q [= <-]|].
  rewrite He. cbn [mbind result_bind].
  destruct (standardize_text_summary dfe ["gender"]) as (dfg & Hg & Rwg & Hnng).
  rewrite Hg. cbn [mbind result_bind mret result_ret].
  eexists _, _. split; [reflexivity|].
  pose proof Eva as (Hhasa & _). pose proof Rwb as (Hlenb & Hhasb & Hcolb & _).
  pose proof Rwm as (Hlenm & Hhasm & Hcolm & _).
  pose proof Rwu as (Hlenu & Hhasu & Hcolu & _).
  pose proof Evd as (Hhasd & _). pose proof Rwe as (Hlene & Hhase & Hcole & _).
  pose proof Rwg as (Hleng & Hhasg & Hcolg & _).
  split; [intros c; by rewrite Hhasg, Hhase, Hhasd, Hhasu, Hhasm, Hhasb|].
  split; [|split; [|split]].
  - intros c Hc Hhas. apply Hnng.
    apply (no_nulls_rewrites_1 _ _ _ Rwe Hnne).
    apply Hnnd; [done|]. by rewrite Hhasb, Hhasa.
  - intros Hdob t. unfold column. rewrite Hcolg, Hcole by not_listed.
    revert t.
    cut (∀ v, v ∈ column dfd "DOB" → ∀ t, v = VTime t → (t ≤ now)%Z).
    { intros Hcut t Ht. by eapply Hcut. }
    apply (cells_evolves [] dfc dfd "DOB" (λ v, ∀ t, v = VTime t → (t ≤ now)%Z));
      [done|apply not_elem_of_nil|].
    intros v Hv t ->. revert Hv. unfold column.
    rewrite Hcolu, Hcolm by not_listed.
    apply Hdateb; [left|apply not_elem_of_nil|by rewrite Hhasa].
  - intros Hage Hnum x. unfold column. rewrite Hcolg by not_listed.
    apply (Hrangee 0%Q); [done| |].
    + by rewrite Hhasd, Hhasu, Hhasm, Hhasb, Hhasa.
    + rewrite (dtype_evolves _ _ _ _ Evd) by apply not_elem_of_nil.
      rewrite Hcolu, Hcolm, Hcolb by not_listed.
      by rewrite (dtype_evolves _ _ _ _ Eva) by apply not_elem_of_nil.
  - apply len_evolves in Evd.
    rewrite !duplicates_removed_app, !na_rows_dropped_app.
    destruct (only_warnings_sums lb Hwb) as (-> & _ & ->).
    destruct (only_warnings_sums lm Hwm) as (-> & _ & ->).
    rewrite Hdupe, Hnae, Hnaa, Hleng, Hlene, Hlena.
    generalize (duplicates_removed la). intros n.
    unfold duplicates_removed, na_rows_dropped. simpl. lia.
Qed.

(** The loyalty pipeline; its own [dropna] is not logged. *)
Lemma clean_loyalty_data_summary now df :
  match filter (λ c, has_column df c = false) ["customer_id"] with
  | [] =>
      ∃ df' log,
        clean_loyalty_data now df = Ok df' log ∧
        (∀ c, has_column df' c = has_column df c) ∧
        (∀ c, c ∈ ["customer_id"; "assigned_discount_group(s)"] →
           has_column df c = true → no_nulls df' c) ∧
        (has_column df "total_loyalty_points" = true →
           ∀ x, VNum x ∈ column df' "total_loyalty_points" → (0 <= x)%Q) ∧
        (len df' + duplicates_removed log ≤ len df)%nat ∧
        na_rows_dropped log = 0
  | missing => clean_loyalty_data now df = Raise (KeyError missing)
  end.
Proof.
  unfold clean_loyalty_data.
  destruct (handle_duplicates_summary df ["loyalty_member_id"; "customer_id"])
    as (dfa & la & Ha & Eva & Hlena & Hnaa & _).
  rewrite Ha. cbn [mbind result_bind].
  destruct (correct_datatypes_summary now dfa [] ["total_loyalty_points"])
    as (dfb & lb & Hb & Rwb & Hwb & Hnumb & _).
  rewrite Hb. cbn [mbind result_bind].
  destruct (handle_missing_values_cases dfb [] ["assigned_discount_group(s)"] [])
    as (dfm & lm & dfc & Hm & Hu & Rwm & Rwu & Hwm & ->).
  cbn [truthy mbind result_bind].
  rewrite <- (filter_absent_evolves _ _ _ _ Eva),
    <- (filter_absent_rewrites _ _ _ _ Rwb),
    <- (filter_absent_rewrites _ _ _ _ Rwm),
    <- (filter_absent_rewrites _ _ _ _ Rwu).
  destruct (dropna ["customer_id"] dfc) as [dfd ld|e] eqn:Hd.
  2:{ unfold dropna in Hd.
      destruct (filter (λ c, has_column dfc c = false) ["customer_id"]);
        [done|]. by injection Hd as <-. }
  assert (filter (λ c, has_column dfc c = false) ["customer_id"] = []) as ->.
  { unfold dropna in Hd. by destruct (filter _ _). }
  cbn [mbind result_bind].
  assert (∀ c, c ∈ ["customer_id"; "assigned_discount_group(s)"] →
            has_column dfb c = true → no_nulls dfd c) as Hnnd.
  { intros c Hc Hhas.
    apply elem_of_cons in Hc as [->|Hc];
      [eapply dropna_no_nulls; [exact Hd|]; left; left|].
    eapply dropna_no_nulls; [exact Hd|]. right.
    by eapply (fills_no_nulls dfb). }
  apply dropna_evolves in Hd as (-> & Evd & Hpresent).
  destruct (handle_outliers_cap_summary dfd "total_loyalty_points" (Some 0%Q) None)
    as (dfe & le & He & Rwe & Hdupe & Hnae & Hnne & Hrangee); [done|].
  rewrite He. cbn [mbind result_bind].
  destruct (standardize_text_summary dfe ["assigned_discount_group(s)"])
    as (dfg & Hg & Rwg & Hnng).
  rewrite Hg. cbn [mbind result_bind mret result_ret].
  eexists _, _. split; [reflexivity|].
  pose proof Eva as (Hhasa & _). pose proof Rwb as (Hlenb & Hhasb & Hcolb & _).
  pose proof Rwm as (Hlenm & Hhasm & Hcolm & _).
  pose proof Rwu as (Hlenu & Hhasu & Hcolu & _).
  pose proof Evd as (Hhasd & _). pose proof Rwe as (Hlene & Hhase & Hcole & _).
  pose proof Rwg as (Hleng & Hhasg & Hcolg & _).
  split; [intros c; by rewrite Hhasg, Hhase, Hhasd, Hhasu, Hhasm, Hhasb|].
  split; [|split; [|split]].
  - intros c Hc Hhas. apply Hnng.
    apply (no_nulls_rewrites_1 _ _ _ Rwe Hnne).
    apply Hnnd; [done|]. by rewrite Hhasb, Hhasa.
  - intros Hpts x. unfold column. rewrite Hcolg by not_listed.
    apply (Hrangee 0%Q); [done| |].
    + by rewrite Hhasd, Hhasu, Hhasm, Hhasb, Hhasa.
    + rewrite (dtype_evolves _ _ _ _ Evd) by apply not_elem_of_nil.
      rewrite Hcolu by not_listed. rewrite Hcolm by apply not_elem_of_nil.
      apply Hnumb; [left | by rewrite Hhasa].
  - apply len_evolves in Evd.
    rewrite !duplicates_removed_app.
    destruct (only_warnings_sums lb Hwb) as (-> & _ & _).
    destruct (only_warnings_sums lm Hwm) as (-> & _ & _).
    rewrite Hdupe, Hleng, Hlene, Hlena.
    generalize (duplicates_removed la). intros n.
    unfold duplicates_removed. simpl. lia.
  - rewrite !na_rows_dropped_app.
    destruct (only_warnings_sums lb Hwb) as (_ & _ & ->).
    destruct (only_warnings_sums lm Hwm) as (_ & _ & ->).
    by rewrite Hnae, Hnaa.
Qed.


(** X10: in the frame the transaction pipeline returns, [order_total] and
    [quantity] hold no null, no order total is below 0.1 and no quantity
    below 1, the four text columns that are present hold no null, and no
    transaction timestamp is later than [now]. *)
Theorem clean_transactions_data_guarantees now df df' log :
  clean_transactions_data now df = Ok df' log →
  no_nulls df' "order_total" ∧ no_nulls df' "quantity" ∧
  (∀ x, VNum x ∈ column df' "order_total" → (1 # 10 <= x)%Q) ∧
  (∀ x, VNum x ∈ column df' "quantity" → (1 <= x)%Q) ∧
  (∀ c, c ∈ ["payment_method"; "order_source"; "item_name"; "item_category"] →
     has_column df' c = true → no_nulls df' c) ∧
  (has_column df' "transaction_timestamps" = true →
     ∀ t, VTime t ∈ column df' "transaction_timestamps" → (t ≤ now)%Z).
Proof.
  intros Hrun. pose proof (clean_transactions_data_summary now df) as Hs.
  destruct (filter _ _) eqn:Hf; [|by rewrite Hrun in Hs].
  destruct Hs as (df'' & log'' & Hrun' & Hhas & Hnn & Hot & Hq & Hts & _).
  rewrite Hrun in Hrun'. injection Hrun' as <- <-.
  split; [|split; [|split; [|split; [|split]]]]; try done.
  - apply Hnn; [left|]. eapply filter_absent_nil; [exact Hf|left].
  - apply Hnn; [right; left|]. eapply filter_absent_nil; [exact Hf|right; left].
  - intros c Hc Hpresent. apply Hnn; [by do 2 right | by rewrite <- Hhas].
  - intros Hpresent. apply Hts. by rewrite <- Hhas.
Qed.

(** X11: in the frame the customer pipeline returns, [customer_id] holds
    no null, nor do [email], [phone], [address] and [gender] where they
    are present, no date of birth is later than [now], and the numbers of
    an [age] column that came in numeric are not negative. *)
Theorem clean_customer_data_guarantees now df df' log :
  clean_customer_data now df = Ok df' log →
  no_nulls df' "customer_id" ∧
  (∀ c, c ∈ ["email"; "phone"; "address"; "gender"] →
     has_column df' c = true → no_nulls df' c) ∧
  (has_column df' "DOB" = true →
     ∀ t, VTime t ∈ column df' "DOB" → (t ≤ now)%Z) ∧
  (has_column df "age" = true → dtype (get_col df "age") = Numeric →
     ∀ x, VNum x ∈ column df' "age" → (0 <= x)%Q).
Proof.
  intros Hrun. pose proof (clean_customer_data_summary now df) as Hs.
  destruct (filter _ _) eqn:Hf; [|by rewrite Hrun in Hs].
  destruct Hs as (df'' & log'' & Hrun' & Hhas & Hnn & Hdob & Hage & _).
  rewrite Hrun in Hrun'. injection Hrun' as <- <-.
  split; [|split; [|split]]; try done.
  - apply Hnn; [left|]. eapply filter_absent_nil; [exact Hf|left].
  - intros c Hc Hpresent. apply Hnn; [by right | by rewrite <- Hhas].
  - intros Hpresent. apply Hdob. by rewrite <- Hhas.
Qed.

(** X12: in the frame the loyalty pipeline returns, [customer_id] holds no
    null, nor does the discount group column where it is present, and no
    number of loyalty points is negative. *)
Theorem clean_loyalty_data_guarantees now df df' log :
  clean_loyalty_data now df = Ok df' log →
  no_nulls df' "customer_id" ∧
  (has_column df' "assigned_discount_group(s)" = true →
     no_nulls df' "assigned_discount_group(s)") ∧
  (has_column df' "total_loyalty_points" = true →
     ∀ x, VNum x ∈ column df' "total_loyalty_points" → (0 <= x)%Q).
Proof.
  intros Hrun. pose proof (clean_loyalty_data_summary now df) as Hs.
  destruct (filter _ _) eqn:Hf; [|by rewrite Hrun in Hs].
  destruct Hs as (df'' & log'' & Hrun' & Hhas & Hnn & Hpts & _).
  rewrite Hrun in Hrun'. injection Hrun' as <- <-.
  split; [|split].
  - apply Hnn; [left|]. eapply filter_absent_nil; [exact Hf|left].
  - intros Hpresent. apply Hnn; [right; left | by rewrite <- Hhas].
  - intros Hpresent. apply Hpts. by rewrite <- Hhas.
Qed.

(** X13: the rows the transaction pipeline loses are exactly those its log
    reports, as duplicates or as dropped for a null. *)
Theorem clean_transactions_data_row_count now df df' log :
  clean_transactions_data now df = Ok df' log →
  len df = len df' + duplicates_removed log + na_rows_dropped log.
Proof.
  intros Hrun. pose proof (clean_transactions_data_summary now df) as Hs.
  destruct (filter _ _) eqn:Hf; [|by rewrite Hrun in Hs].
  destruct Hs as (df'' & log'' & Hrun' & _ & _ & _ & _ & _ & Hlen).
  rewrite Hrun in Hrun'. by injection Hrun' as <- <-.
Qed.

(** X14: the rows the customer pipeline loses are exactly those its log
    reports, as duplicates or as dropped for a null. *)
Theorem clean_customer_data_row_count now df df' log :
  clean_customer_data now df = Ok df' log →
  len df = len df' + duplicates_removed log + na_rows_dropped log.
Proof.
  intros Hrun. pose proof (clean_customer_data_summary now df) as Hs.
  destruct (filter _ _) eqn:Hf; [|by rewrite Hrun in Hs].
  destruct Hs as (df'' & log'' & Hrun' & _ & _ & _ & _ & Hlen).
  rewrite Hrun in Hrun'. by injection Hrun' as <- <-.
Qed.

(** X15: the loyalty pipeline drops the rows without [customer_id] by a
    [dropna] of its own, which it does not log: its log never reports a
    row dropped for a null, and the rows it returns and the duplicates it
    reports add up to at most the rows it was given. *)
Theorem clean_loyalty_data_unlogged_drop now df df' log :
  clean_loyalty_data now df = Ok df' log →
  na_rows_dropped log = 0 ∧ (len df' + duplicates_removed log ≤ len df)%nat.
Proof.
  intros Hrun. pose proof (clean_loyalty_data_summary now df) as Hs.
  destruct (filter _ _) eqn:Hf; [|by rewrite Hrun in Hs].
  destruct Hs as (df'' & log'' & Hrun' & _ & _ & _ & Hlen & Hna).
  rewrite Hrun in Hrun'. by injection Hrun' as <- <-.
Qed.
End PipelineGuarantees.

Lemma clean_transactions_data_guarantees_witness :
  ∃ df' log,
    @clean_transactions_data no_readers 0 orders_example = Ok df' log ∧
    no_nulls df' "order_total" ∧ no_nulls df' "quantity" ∧
    (∀ x, VNum x ∈ column df' "order_total" → (1 # 10 <= x)%Q) ∧
    (∀ x, VNum x ∈ column df' "quantity" → (1 <= x)%Q) ∧
    (∀ c, c ∈ ["payment_method"; "order_source"; "item_name"; "item_category"] →
       has_column df' c = true → no_nulls df' c) ∧
    (has_column df' "transaction_timestamps" = true →
       ∀ t, VTime t ∈ column df' "transaction_timestamps" → (t ≤ 0)%Z).
Proof.
  let r := eval vm_compute in (@clean_transactions_data no_readers 0 orders_example) in
  match r with
  | Ok ?d ?l =>
      assert (@clean_transactions_data no_readers 0 orders_example = Ok d l) as Hrun
        by (vm_compute; reflexivity);
      exists d, l; split; [exact Hrun|];
      exact (@clean_transactions_data_guarantees no_readers 0 orders_example d l Hrun)
  end.
Defined.

Lemma clean_customer_data_guarantees_witness :
  ∃ df' log,
    @clean_customer_data no_readers 20000 births_example = Ok df' log ∧
    no_nulls df' "customer_id" ∧
    (∀ c, c ∈ ["email"; "phone"; "address"; "gender"] →
       has_column df' c = true → no_nulls df' c) ∧
    (has_column df' "DOB" = true →
       ∀ t, VTime t ∈ column df' "DOB" → (t ≤ 20000)%Z) ∧
    (has_column births_example "age" = true →
     dtype (get_col births_example "age") = Numeric →
       ∀ x, VNum x ∈ column df' "age" → (0 <= x)%Q).
Proof.
  let r := eval vm_compute in (@clean_customer_data no_readers 20000 births_example) in
  match r with
  | Ok ?d ?l =>
      assert (@clean_customer_data no_readers 20000 births_example = Ok d l) as Hrun
        by (vm_compute; reflexivity);
      exists d, l; split; [exact Hrun|];
      exact (@clean_customer_data_guarantees no_readers 20000 births_example d l Hrun)
  end.
Defined.

Lemma clean_loyalty_data_guarantees_witness :
  ∃ df' log,
    @clean_loyalty_data no_readers 0 loyalty_example = Ok df' log ∧
    no_nulls df' "customer_id" ∧
    (has_column df' "assigned_discount_group(s)" = true →
       no_nulls df' "assigned_discount_group(s)") ∧
    (has_column df' "total_loyalty_points" = true →
       ∀ x, VNum x ∈ column df' "total_loyalty_points" → (0 <= x)%Q).
Proof.
  let r := eval vm_compute in (@clean_loyalty_data no_readers 0 loyalty_example) in
  match r with
  | Ok ?d ?l =>
      assert (@clean_loyalty_data no_readers 0 loyalty_example = Ok d l) as Hrun
        by (vm_compute; reflexivity);
      exists d, l; split; [exact Hrun|];
      exact (@clean_loyalty_data_guarantees no_readers 0 loyalty_example d l Hrun)
  end.
Defined.

Lemma clean_transactions_data_row_count_witness :
  ∃ df' log,
    @clean_transactions_data no_readers 0 orders_example = Ok df' log ∧
    len orders_example = len df' + duplicates_removed log + na_rows_dropped log.
Proof.
  let r := eval vm_compute in (@clean_transactions_data no_readers 0 orders_example) in
  match r with
  | Ok ?d ?l =>
      assert (@clean_transactions_data no_readers 0 orders_example = Ok d l) as Hrun
        by (vm_compute; reflexivity);
      exists d, l; split; [exact Hrun|];
      exact (@clean_transactions_data_row_count no_readers 0 orders_example d l Hrun)
  end.
Defined.

Lemma clean_customer_data_row_count_witness :
  ∃ df' log,
    @clean_customer_data no_readers 0 customers_example = Ok df' log ∧
    len customers_example = len df' + duplicates_removed log + na_rows_dropped log.
Proof.
  let r := eval vm_compute in (@clean_customer_data no_readers 0 customers_example) in
  match r with
  | Ok ?d ?l =>
      assert (@clean_customer_data no_readers 0 customers_example = Ok d l) as Hrun
        by (vm_compute; reflexivity);
      exists d, l; split; [exact Hrun|];
      exact (@clean_customer_data_row_count no_readers 0 customers_example d l Hrun)
  end.
Defined.

Lemma clean_loyalty_data_unlogged_drop_witness :
  ∃ df' log,
    @clean_loyalty_data no_readers 0 anonymous_loyalty_example = Ok df' log ∧
    (len df' + duplicates_removed log < len anonymous_loyalty_example)%nat ∧
    na_rows_dropped log = 0 ∧
    (len df' + duplicates_removed log ≤ len anonymous_loyalty_example)%nat.
Proof.
  let r := eval vm_compute in
    (@clean_loyalty_data no_readers 0 anonymous_loyalty_example) in
  match r with
  | Ok ?d ?l =>
      assert (@clean_loyalty_data no_readers 0 anonymous_loyalty_example = Ok d l)
        as Hrun by (vm_compute; reflexivity);
      exists d, l; split; [exact Hrun|]; split; [vm_compute; lia|];
      exact (@clean_loyalty_data_unlogged_drop no_readers 0
               anonymous_loyalty_example d l Hrun)
  end.
Defined.
